(** * Hangman: a shallow embedding of [hangman1.py]

    The development follows the Python module top-down: the [str] methods
    the game relies on, the random source, [load_word_lists], the
    [HangmanGame] object with its methods, and the body of the [play] loop.
    The theorems about them come afterwards.

    Modelling conventions.
    - A Python [str] is a [string]; its characters are the 8-bit [ascii]
      type read as the ASCII repertoire: the letters are [A-Z] and [a-z],
      and a code above 127 is neither a letter nor white space.
    - A Python [int] is a [Z].
    - [self.guessed_letters] is a [gset string], as the Python [set] of the
      one-character strings the player tried.
    - An exception is a value of [exn] on the left of a sum.
    - [random] is a stream of raw draws, consumed front to back. *)

From Stdlib Require Import ZArith Lia Ascii String List Bool.
From Stdlib Require Import Numbers.DecimalString.
From stdpp Require Import gmap strings list.

Local Open Scope Z_scope.

(** ** Characters *)

Module Char.

Definition code (c : ascii) : nat := nat_of_ascii c.

Definition isupper (c : ascii) : bool :=
  ((65 <=? code c) && (code c <=? 90))%nat.

Definition islower (c : ascii) : bool :=
  ((97 <=? code c) && (code c <=? 122))%nat.

(** [c.isalpha()] for a one-character string. *)
Definition isalpha (c : ascii) : bool := isupper c || islower c.

(** [c.isspace()]: tab, line feed, vertical tab, form feed, carriage
    return, the four separators 28 to 31, and the space. *)
Definition isspace (c : ascii) : bool :=
  ((9 <=? code c) && (code c <=? 13)
   || (28 <=? code c) && (code c <=? 32))%nat.

Definition lower (c : ascii) : ascii :=
  if isupper c then ascii_of_nat (code c + 32) else c.

Definition upper (c : ascii) : ascii :=
  if islower c then ascii_of_nat (code c - 32) else c.

End Char.

(** ** The [str] methods used by the game *)

Module Str.

(** [len(s)] *)
Definition len (s : string) : Z := Z.of_nat (String.length s).

Fixpoint all (p : ascii → bool) (s : string) : bool :=
  match s with
  | EmptyString => true
  | String c s' => p c && all p s'
  end.

(** [s.isalpha()]: every character is a letter and there is at least one. *)
Definition isalpha (s : string) : bool :=
  match s with
  | EmptyString => false
  | String _ _ => all Char.isalpha s
  end.

(** [s.lower()] *)
Fixpoint lower (s : string) : string :=
  match s with
  | EmptyString => EmptyString
  | String c s' => String (Char.lower c) (lower s')
  end.

Fixpoint lstrip (s : string) : string :=
  match s with
  | EmptyString => EmptyString
  | String c s' => if Char.isspace c then lstrip s' else s
  end.

Fixpoint rstrip (s : string) : string :=
  match s with
  | EmptyString => EmptyString
  | String c s' =>
      match rstrip s' with
      | EmptyString => if Char.isspace c then EmptyString else String c EmptyString
      | r => String c r
      end
  end.

(** [s.strip()] *)
Definition strip (s : string) : string := rstrip (lstrip s).

(** [sep.join(parts)] *)
Fixpoint join (sep : string) (parts : list string) : string :=
  match parts with
  | [] => EmptyString
  | [p] => p
  | p :: rest => p +:+ sep +:+ join sep rest
  end.

(** [s.split()]: the maximal runs of characters that are not white space.
    [cur] is the run being read, most recent character first. *)
Definition flush (cur : string) : list string :=
  match cur with
  | EmptyString => []
  | _ => [String.rev cur]
  end.

Fixpoint split_go (cur : string) (s : string) : list string :=
  match s with
  | EmptyString => flush cur
  | String c s' =>
      if Char.isspace c then flush cur ++ split_go EmptyString s'
      else split_go (String c cur) s'
  end.

Definition split (s : string) : list string := split_go EmptyString s.

Fixpoint startswith (s p : string) : bool :=
  match p, s with
  | EmptyString, _ => true
  | String a p', String b s' => bool_decide (a = b) && startswith s' p'
  | String _ _, EmptyString => false
  end.

(** [sub in s] on strings: [sub] occurs in [s] as a substring. *)
Fixpoint contains (sub s : string) : bool :=
  startswith s sub
  || match s with
     | EmptyString => false
     | String _ s' => contains sub s'
     end.

(** [s.title()]: a letter that follows a letter is lowered, any other
    letter is raised. *)
Fixpoint title_go (prev_cased : bool) (s : string) : string :=
  match s with
  | EmptyString => EmptyString
  | String c s' =>
      String (if prev_cased then Char.lower c else Char.upper c)
             (title_go (Char.isalpha c) s')
  end.

Definition title (s : string) : string := title_go false s.

(** [list(s)] and [str.join] with the empty separator over a list of
    one-character strings. *)
Definition to_list (s : string) : list ascii := list_ascii_of_string s.
Definition of_list (l : list ascii) : string := string_of_list_ascii l.

(** The line feed, written [\n] in the source. *)
Definition newline : string := String (ascii_of_nat 10) EmptyString.

(** [str(n)] for an [int]. *)
Definition of_Z (n : Z) : string := NilZero.string_of_int (Z.to_int n).

End Str.

(** ** Exceptions *)

Inductive exn : Set :=
  | IndexError.  (* raised by [random.choice] on an empty sequence and by a
                    list assignment out of range *)

(** The name of the class of an exception. *)
Definition exn_name (e : exn) : string :=
  match e with
  | IndexError => "IndexError"
  end.

Definition result (A : Type) : Type := exn + A.

(** A computation fails with an exception of the class called [name]. *)
Definition raises_named {A} (name : string) (x : result A) : Prop :=
  ∃ e, x = inl e ∧ exn_name e = name.

Definition raise {A} (e : exn) : result A := inl e.

Global Instance result_ret : MRet result := λ A x, inr x.
Global Instance result_bind : MBind result := λ A B f m,
  match m with
  | inl e => inl e
  | inr x => f x
  end.
Global Instance result_fmap : FMap result := λ A B f m,
  match m with
  | inl e => inl e
  | inr x => inr (f x)
  end.

(** ** The [random] module *)

Module Random.

(** The source of randomness: the stream of raw draws still to come. *)
Definition state : Type := nat → nat.

Definition advance (r : state) : state := λ k, r (S k).

(** A number below [n], for [0 < n]. *)
Definition randbelow (n : nat) (r : state) : nat * state :=
  ((r 0%nat `mod` n)%nat, advance r).

(** [random.choice(seq)] *)
Definition choice {A} (seq : list A) (r : state) : result (A * state) :=
  match seq with
  | [] => raise IndexError
  | _ =>
      let '(i, r') := randbelow (length seq) r in
      match seq !! i with
      | Some x => mret (x, r')
      | None => raise IndexError
      end
  end.

(** [random.randint(a, b)], both ends included. *)
Definition randint (a b : Z) (r : state) : Z * state :=
  let '(k, r') := randbelow (Z.to_nat (b - a + 1)) r in
  (a + Z.of_nat k, r').

(** [[random.choice(seq) for _ in range(n)]] *)
Fixpoint choices {A} (n : nat) (seq : list A) (r : state)
  : result (list A * state) :=
  match n with
  | O => mret ([], r)
  | S n' =>
      '(x, r1) ← choice seq r;
      '(xs, r2) ← choices n' seq r1;
      mret (x :: xs, r2)
  end.

End Random.

(** ** Module constants and the word lists *)

Definition DEFAULT_MAX_LIVES : Z := 6.
Definition DEFAULT_TIME_LIMIT : Z := 15.
Definition MAX_WORD_LENGTH : Z := 8.

(** [load_word_lists()], as a function of what the two NLTK corpora hold. *)
Definition load_word_lists (nltk_words brown : list string)
  : list string * list string :=
  let words_list :=
    Str.lower <$>
      filter (λ w, Str.isalpha w && (Str.len w <=? MAX_WORD_LENGTH) = true)
             nltk_words in
  let brown_words :=
    Str.lower <$> filter (λ w, Str.isalpha w = true) brown in
  (words_list, brown_words).

(** ** The game object *)

Record HangmanGame : Type := mkGame {
  words : list string;
  brown_words : list string;
  max_lives : Z;
  lives : Z;
  mode : string;
  time_limit : Z;
  answer : string;
  guessed_letters : gset string;
  display_word : string;
}.

Definition set_lives (n : Z) (self : HangmanGame) : HangmanGame :=
  mkGame (words self) (brown_words self) (max_lives self) n (mode self)
         (time_limit self) (answer self) (guessed_letters self)
         (display_word self).

Definition set_answer (a : string) (self : HangmanGame) : HangmanGame :=
  mkGame (words self) (brown_words self) (max_lives self) (lives self)
         (mode self) (time_limit self) a (guessed_letters self)
         (display_word self).

Definition set_guessed_letters (s : gset string) (self : HangmanGame)
  : HangmanGame :=
  mkGame (words self) (brown_words self) (max_lives self) (lives self)
         (mode self) (time_limit self) (answer self) s (display_word self).

Definition set_display_word (d : string) (self : HangmanGame) : HangmanGame :=
  mkGame (words self) (brown_words self) (max_lives self) (lives self)
         (mode self) (time_limit self) (answer self) (guessed_letters self) d.

(** The characters of a string as one-character strings: what iterating
    over a [str], or [list(s)], yields. *)
Definition chars (s : string) : list string :=
  (λ c, String c EmptyString) <$> Str.to_list s.

(** [_choose_word] *)
Definition _choose_word (self : HangmanGame) (r : Random.state)
  : result (string * Random.state) :=
  if bool_decide (mode self = "basic") then
    '(w, r1) ← Random.choice (words self) r;
    mret (Str.lower w, r1)
  else
    let '(phrase_length, r1) := Random.randint 3 5 r in
    '(ws, r2) ← Random.choices (Z.to_nat phrase_length) (brown_words self) r1;
    mret (Str.lower (Str.join " " ws), r2).

(** [_init_display] *)
Definition _init_display (self : HangmanGame) : string :=
  Str.join ""
    ((λ c, if Str.isalpha c then "_" else c) <$> chars (answer self)).

(** The [for] loop of [_update_display]: [i] is the index [enumerate]
    has reached, [rest] the characters of the answer from there on. *)
Fixpoint update_loop (letter : string) (new_display : list string)
    (i : nat) (rest : list string) : result (list string) :=
  match rest with
  | [] => mret new_display
  | c :: rest' =>
      if bool_decide (c = letter) then
        if bool_decide (i < length new_display)%nat
        then update_loop letter (<[i := letter]> new_display) (S i) rest'
        else raise IndexError
      else update_loop letter new_display (S i) rest'
  end.

(** [_update_display] *)
Definition _update_display (self : HangmanGame) (letter : string)
  : result HangmanGame :=
  new_display ← update_loop letter (chars (display_word self)) 0
                            (chars (answer self));
  mret (set_display_word (Str.join "" new_display) self).

(** [is_won] *)
Definition is_won (self : HangmanGame) : bool :=
  negb (Str.contains "_" (display_word self)).

(** [is_lost] *)
Definition is_lost (self : HangmanGame) : bool := lives self <=? 0.

(** [__init__]: the attributes are assigned in the order of the source;
    the answer is chosen after [lives] is set and before the display. *)
Definition __init__ (WORDS_LIST BROWN_WORDS : list string)
    (max_lives : Z) (mode : string) (time_limit : Z) (r : Random.state)
  : result (HangmanGame * Random.state) :=
  let self := mkGame WORDS_LIST BROWN_WORDS max_lives max_lives mode
                     time_limit "" ∅ "" in
  '(a, r') ← _choose_word self r;
  let self := set_answer a self in
  let self := set_guessed_letters ∅ self in
  let self := set_display_word (_init_display self) self in
  mret (self, r').

(** ** Timed input *)

(** What the player does during one prompt: lets the deadline pass, or
    commits the line [raw] before it.  The countdown that the reader
    draws meanwhile is not part of the model. *)
Inductive reading : Type :=
  | Deadline
  | Committed (raw : string).

(** [timed_input]: [None] on a timeout, else the committed line stripped
    (both the POSIX and the Windows reader end in [.strip()]). *)
Definition timed_input (rd : reading) : option string :=
  match rd with
  | Deadline => None
  | Committed raw => Some (Str.strip raw)
  end.

(** ** The game loop *)

(** Truth value of [guess] in [if not guess]: [None] and the empty string
    are false. *)
Definition truthy (guess : option string) : bool :=
  match guess with
  | None => false
  | Some EmptyString => false
  | Some (String _ _) => true
  end.

(** One pass through the body of the [while] loop of [play], from the
    value [timed_input] returned.  The result is the game afterwards and
    the lines of feedback printed. *)
Definition play_round (self : HangmanGame) (guess : option string)
  : result (HangmanGame * list string) :=
  if negb (truthy guess) then
    mret (set_lives (lives self - 1) self, ["Time is up! You lost a life."])
  else
    let guess := Str.lower (default "" guess) in
    if negb (Str.len guess =? 1) || negb (Str.isalpha guess) then
      mret (self, ["Please enter a single letter."])
    else if bool_decide (guess ∈ guessed_letters self) then
      mret (set_lives (lives self - 1) self,
            ["You've already guessed that letter. -1 life"])
    else
      let self := set_guessed_letters ({[guess]} ∪ guessed_letters self) self in
      if Str.contains guess (answer self) then
        self ← _update_display self guess;
        mret (self, ["Correct! Letter '" +:+ guess +:+ "' is in the word."])
      else
        mret (set_lives (lives self - 1) self,
              ["Wrong! Letter '" +:+ guess +:+ "' is not in the word."]).

(** The loop guard of [play]. *)
Definition in_progress (self : HangmanGame) : bool :=
  negb (is_lost self) && negb (is_won self).

(** The [while] loop of [play] on the readings [inputs]; it stops at a
    terminal state, or when the readings are used up. *)
Fixpoint play_loop (inputs : list reading) (self : HangmanGame)
  : result (HangmanGame * list string) :=
  if in_progress self then
    match inputs with
    | [] => mret (self, [])
    | rd :: inputs' =>
        let status :=
          [Str.newline +:+ "Lives left: " +:+ Str.of_Z (lives self);
           "Word: " +:+ Str.join " " (chars (display_word self))] in
        '(self', feedback) ← play_round self (timed_input rd);
        '(final, out) ← play_loop inputs' self';
        mret (final, status ++ feedback ++ out)
    end
  else mret (self, []).

(** [play].  The lines after the loop are printed once the loop has ended,
    won or lost; when the readings are used up with the game in progress
    the loop has not ended and no verdict is printed. *)
Definition play (self : HangmanGame) (inputs : list reading)
  : result (HangmanGame * list string) :=
  let banner :=
    ["Welcome to Hangman!";
     "Game Mode: " +:+ Str.title (mode self);
     "You have " +:+ Str.of_Z (lives self)
       +:+ " lives. Guess letters to reveal the word/phrase.";
     "You have " +:+ Str.of_Z (time_limit self) +:+ " seconds per guess."
       +:+ Str.newline] in
  '(final, out) ← play_loop inputs self;
  let verdict :=
    if in_progress final then []
    else if is_won final
    then [Str.newline +:+ "Congratulations! You guessed the word: "
          +:+ answer final]
    else [Str.newline +:+ "Game Over! The correct answer was: "
          +:+ answer final] in
  mret (final, banner ++ out ++ verdict).

(** The states the loop passes through, starting from [g0]. *)
Inductive reachable (g0 : HangmanGame) : HangmanGame → Prop :=
  | reach_start : reachable g0 g0
  | reach_round g rd g' out :
      reachable g0 g →
      in_progress g = true →
      play_round g (timed_input rd) = inr (g', out) →
      reachable g0 g'.

(** ** Sample games: the fixtures of [hangman1_test.py] *)

Definition const_rand (n : nat) : Random.state := λ _, n.

Definition word_game : HangmanGame :=
  mkGame ["apple"] ["unit"; "test"] 3 3 "basic" 5 "apple" ∅ "_____".

Definition phrase_game : HangmanGame :=
  mkGame ["apple"] ["unit"; "test"] 3 3 "intermediate" 5 "unit test" ∅
         "____ ____".

(** The game after the guess [p] at [word_game]. *)
Definition after_p : HangmanGame :=
  mkGame ["apple"] ["unit"; "test"] 3 3 "basic" 5 "apple" {["p"]} "_pp__".

(** The game after the further guess [a]. *)
Definition after_pa : HangmanGame :=
  mkGame ["apple"] ["unit"; "test"] 3 3 "basic" 5 "apple" {["a"; "p"]} "app__".

(** A phrase game as the constructor builds it when every draw is 0. *)
Definition unit_phrase_game : HangmanGame :=
  mkGame ["apple"] ["unit"; "test"] 3 3 "intermediate" 5 "unit unit unit" ∅
         "____ ____ ____".

(** A game constructed with no life. *)
Definition lifeless_game : HangmanGame :=
  mkGame ["apple"] [] 0 0 "basic" 5 "apple" ∅ "_____".

(** ** Notions used in the statements *)

(** A guess that passes the check of [play]: one character, a letter. *)
Definition single_letter (guess : string) : Prop :=
  ∃ c, guess = String c "" ∧ Char.isalpha c = true.

(** What the player's line becomes before it is checked: stripped by the
    reader, lowered by the loop. *)
Definition normalized (raw : string) : string := Str.lower (Str.strip raw).

(** A word of the game: not empty, lowercase letters only. *)
Definition lowercase_word (t : string) : Prop :=
  t ≠ "" ∧ Str.all Char.islower t = true.

(** Whether the character [c] of the answer is shown: it is not a letter,
    or it has been guessed. *)
Definition shown (g : HangmanGame) (c : ascii) : bool :=
  negb (Char.isalpha c) || bool_decide (String c "" ∈ guessed_letters g).

(** The display agrees with the answer and the guesses, cell by cell. *)
Definition mask_ok (g : HangmanGame) : Prop :=
  String.length (display_word g) = String.length (answer g)
  ∧ ∀ i c, String.get i (answer g) = Some c →
      String.get i (display_word g)
      = Some (if shown g c then c else "_"%char).

(** The invariant in the words of the data model. *)
Definition RevealMask_invariant (g : HangmanGame) : Prop :=
  String.length (display_word g) = String.length (answer g)
  ∧ ∀ i c, String.get i (answer g) = Some c →
      ∃ m, String.get i (display_word g) = Some m
        ∧ (m = c ↔ Char.isalpha c = false ∨ String c "" ∈ guessed_letters g)
        ∧ (¬ (Char.isalpha c = false ∨ String c "" ∈ guessed_letters g) →
           m = "_"%char).

(** ** [_update_display] position by position *)

(** The effect of the loop of [_update_display] on the display, read
    position by position: [reveal letter a d] walks the answer [a] and the
    display [d] together. *)
Fixpoint reveal (letter : string) (a d : string) : result string :=
  match a, d with
  | EmptyString, _ => mret d
  | String c a', String x d' =>
      String (if bool_decide (String c "" = letter) then c else x)
        <$> reveal letter a' d'
  | String _ _, EmptyString =>
      if bool_decide (letter ∈ chars a) then raise IndexError else mret ""
  end.

(** [_update_display] called for each of [letters] in turn. *)
Fixpoint update_all (self : HangmanGame) (letters : list string)
  : result HangmanGame :=
  match letters with
  | [] => mret self
  | letter :: letters' =>
      self' ← _update_display self letter;
      update_all self' letters'
  end.

(** The display after revealing every position whose character satisfies
    [p], in one pass. *)
Fixpoint reveal_where (p : string → bool) (a d : string) : result string :=
  match a, d with
  | EmptyString, _ => mret d
  | String c a', String x d' =>
      String (if p (String c "") then c else x) <$> reveal_where p a' d'
  | String _ _, EmptyString =>
      if existsb p (chars a) then raise IndexError else mret ""
  end.

(** ** The timed readers *)

(** What one pass of a reader's [while True] loop observes.  The clock and
    the terminal are outside the program, so each pass takes from them:
    [remaining], the value of [int(max(0, end - time.time()))];
    [expired], the outcome of [time.time() >= end];
    [kbhit], for the Windows reader, the key [getwch] returns when [kbhit]
    says one is waiting; [ready], for the POSIX reader, the line
    [readline] returns when [select] reports the input ready. *)
Record poll : Type := mkPoll {
  remaining : Z;
  expired : bool;
  kbhit : option ascii;
  ready : option string;
}.

(** Where a reader stands after the passes observed: still in its loop,
    with the text typed so far, or returned. *)
Inductive run : Type :=
  | Waiting (typed : string)
  | Returned (value : option string).

Module Reader.

Definition cr : ascii := ascii_of_nat 13.
Definition lf : ascii := ascii_of_nat 10.
Definition backspace : ascii := ascii_of_nat 8.

(** The format [{remaining:2d}]: the decimal, padded on the left to two
    characters. *)
Definition format_2d (n : Z) : string :=
  let s := Str.of_Z n in
  if (String.length s <? 2)%nat then " " +:+ s else s.

(** [_render_timer_line]: the text written to the terminal. *)
Definition _render_timer_line (prompt typed : string) (remaining : Z)
  : list string :=
  let line :=
    String cr "" +:+ prompt +:+ typed +:+ "   " +:+ format_2d remaining
      +:+ "s" in
  [line +:+ "          "].

(** [typed[:-1]] *)
Fixpoint chop (typed : string) : string :=
  match typed with
  | EmptyString => EmptyString
  | String _ EmptyString => EmptyString
  | String c rest => String c (chop rest)
  end.

(** The effect of a key that is not an end of line on the text typed. *)
Definition edit (typed : string) (ch : ascii) : string :=
  if bool_decide (ch = backspace) then chop typed
  else typed +:+ String ch "".

Definition is_eol (ch : ascii) : bool :=
  bool_decide (ch = cr) || bool_decide (ch = lf).

Definition emit (out : list string) (rest : run * list string)
  : run * list string :=
  (rest.1, out ++ rest.2).

(** The loop of [_windows_timed_input]; [MSVCRT] tells whether the module
    was imported. *)
Fixpoint windows_loop (MSVCRT : bool) (prompt typed : string)
    (polls : list poll) : run * list string :=
  match polls with
  | [] => (Waiting typed, [])
  | p :: polls' =>
      let out := _render_timer_line prompt typed (remaining p) in
      if expired p then (Returned None, out ++ [Str.newline])
      else
        match (if MSVCRT then kbhit p else None) with
        | Some ch =>
            if is_eol ch
            then (Returned (Some (Str.strip typed)), out ++ [Str.newline])
            else emit out (windows_loop MSVCRT prompt (edit typed ch) polls')
        | None => emit out (windows_loop MSVCRT prompt typed polls')
        end
  end.

(** [_windows_timed_input] *)
Definition _windows_timed_input (MSVCRT : bool) (prompt : string)
    (polls : list poll) : run * list string :=
  windows_loop MSVCRT prompt "" polls.

(** The loop of [_posix_timed_input]; [SELECT_MODULE] tells whether the
    module was imported, [last_shown] is [None] before the first render. *)
Fixpoint posix_loop (SELECT_MODULE : bool) (prompt : string)
    (last_shown : option Z) (polls : list poll) : run * list string :=
  match polls with
  | [] => (Waiting "", [])
  | p :: polls' =>
      let fresh := bool_decide (Some (remaining p) ≠ last_shown) in
      let out :=
        if fresh then _render_timer_line prompt "" (remaining p) else [] in
      let last_shown := if fresh then Some (remaining p) else last_shown in
      if expired p then (Returned None, out ++ [Str.newline])
      else
        match (if SELECT_MODULE then ready p else None) with
        | Some line =>
            (Returned (Some (Str.strip line)), out ++ [Str.newline])
        | None => emit out (posix_loop SELECT_MODULE prompt last_shown polls')
        end
  end.

(** [_posix_timed_input] *)
Definition _posix_timed_input (SELECT_MODULE : bool) (prompt : string)
    (polls : list poll) : run * list string :=
  emit [prompt] (posix_loop SELECT_MODULE prompt None polls).

(** The conditional import at the top of the module: [msvcrt] on Windows,
    [select] elsewhere. *)
Definition MSVCRT (os_name : string) : bool := bool_decide (os_name = "nt").
Definition SELECT_MODULE (os_name : string) : bool :=
  negb (bool_decide (os_name = "nt")).

(** [timed_input], on the platform [os_name]. *)
Definition timed_input (os_name prompt : string) (polls : list poll)
  : run * list string :=
  if bool_decide (os_name = "nt")
  then _windows_timed_input (MSVCRT os_name) prompt polls
  else _posix_timed_input (SELECT_MODULE os_name) prompt polls.

(** Whether a pass that has not expired ends the read on [os_name]. *)
Definition commits (os_name : string) (p : poll) : bool :=
  if bool_decide (os_name = "nt")
  then from_option is_eol false (kbhit p)
  else bool_decide (is_Some (ready p)).

(** The remaining values that get rendered when a line is drawn only on a
    change: [l] without the elements equal to their predecessor, [last]
    being the one before the first. *)
Fixpoint collapse (last : option Z) (l : list Z) : list Z :=
  match l with
  | [] => []
  | n :: l' =>
      if bool_decide (Some n ≠ last) then n :: collapse (Some n) l'
      else collapse last l'
  end.

End Reader.

(** ** The script *)

(** The block under [if __name__ == "__main__"]: [line] is what the player
    answers to the menu, [inputs] what the player does at each prompt of
    the game. *)
Definition main (nltk_words brown : list string) (line : string)
    (r : Random.state) (inputs : list reading)
  : result (HangmanGame * list string) :=
  let '(WORDS_LIST, BROWN_WORDS) := load_word_lists nltk_words brown in
  let menu :=
    ["Choose game mode:"; "1. Basic (single word)";
     "2. Intermediate (phrase)"; "Enter 1 or 2: "] in
  let USER_MODE := Str.strip line in
  let USER_MODE :=
    if bool_decide (USER_MODE = "2") then "intermediate" else "basic" in
  '(game_instance, _) ←
    __init__ WORDS_LIST BROWN_WORDS DEFAULT_MAX_LIVES USER_MODE
             DEFAULT_TIME_LIMIT r;
  '(final, out) ← play game_instance inputs;
  mret (final, menu ++ out).

(** Sample passes of a reader, with [n] whole seconds left: nothing
    happens, a key is waiting, a line is ready, the deadline has passed. *)
Definition idle (n : Z) : poll := mkPoll n false None None.
Definition key (n : Z) (ch : ascii) : poll := mkPoll n false (Some ch) None.
Definition line_in (n : Z) (line : string) : poll :=
  mkPoll n false None (Some line).
Definition late : poll := mkPoll 0 true None None.

(** ** Further notions used in the statements *)

(** The letters of the answer, each once, in the order they last occur. *)
Definition distinct_letters (a : string) : list string :=
  remove_dups (filter (λ s, Str.isalpha s = true) (chars a)).

(** A character of an answer built from the word lists: a lowercase
    letter, or the space that joins the words of a phrase. *)
Definition answer_char (c : ascii) : bool :=
  Char.islower c || bool_decide (c = " "%char).

(** * Properties *)

(** ** The unit tests of [hangman1_test.py], replayed on the model *)

Example strip_ex : Str.strip ("  Ab c" +:+ Str.newline +:+ " ") = "Ab c".
Proof. vm_compute. reflexivity. Qed.

Example split_ex : Str.split " unit  test " = ["unit"; "test"].
Proof. vm_compute. reflexivity. Qed.

Example title_ex : Str.title "basic" = "Basic" ∧ Str.title "inTer mediate" = "Inter Mediate".
Proof. vm_compute. split; reflexivity. Qed.

Example of_Z_ex : Str.of_Z 6 = "6" ∧ Str.of_Z (-12) = "-12".
Proof. vm_compute. split; reflexivity. Qed.

Example contains_ex : Str.contains "pl" "apple" = true ∧ Str.contains "z" "apple" = false.
Proof. vm_compute. split; reflexivity. Qed.

Example test_initial_display :
  _init_display word_game = "_____" ∧ _init_display phrase_game = "____ ____".
Proof. vm_compute. split; reflexivity. Qed.

Example test_correct_guess_updates_display :
  display_word <$> _update_display word_game "p" = inr "_pp__" ∧
  display_word <$> _update_display phrase_game "t" = inr "___t t__t".
Proof. vm_compute. split; reflexivity. Qed.

Example test_is_won : is_won (set_display_word "apple" word_game) = true.
Proof. reflexivity. Qed.

Example test_is_lost : is_lost (set_lives 0 word_game) = true.
Proof. reflexivity. Qed.

Example test_choose_word_basic :
  fst <$> __init__ ["apple"] ["unit"; "test"] 3 "basic" 5 (const_rand 7)
  = inr word_game.
Proof. vm_compute. reflexivity. Qed.

Example test_choose_word_intermediate :
  (answer ∘ fst) <$>
    __init__ ["apple"] ["unit"; "test"] 3 "intermediate" 5 (λ k, k)
  = inr "test unit test".
Proof. vm_compute. reflexivity. Qed.

Example play_ex :
  (λ p, (lives (fst p), display_word (fst p))) <$>
    play word_game
      [Committed "p"; Committed "P "; Deadline; Committed "xy";
       Committed "a"; Committed "l"; Committed "e"; Committed "q"]
  = inr (1, "apple").
Proof. vm_compute. reflexivity. Qed.

(** ** Strings as sequences of characters *)

Section StringFacts.

Implicit Types (s t d a : string) (c x : ascii) (l : list string).

Lemma app_cons c s t : String c s +:+ t = String c (s +:+ t).
Proof. reflexivity. Qed.

Lemma app_empty_l s : "" +:+ s = s.
Proof. reflexivity. Qed.

Lemma app_empty_r s : s +:+ "" = s.
Proof. induction s as [|c s IH]; [done|]. rewrite app_cons. by f_equal. Qed.

Lemma app_assoc_str s t d : (s +:+ t) +:+ d = s +:+ (t +:+ d).
Proof.
  induction s as [|c s IH]; [done|]. rewrite !app_cons. by f_equal.
Qed.

Lemma join_empty_cons p l : Str.join "" (p :: l) = p +:+ Str.join "" l.
Proof. destruct l; [by rewrite app_empty_r | done]. Qed.

Lemma join_empty_app l1 l2 :
  Str.join "" (l1 ++ l2) = Str.join "" l1 +:+ Str.join "" l2.
Proof.
  induction l1 as [|p l1 IH]; [done|].
  rewrite <- app_comm_cons, !join_empty_cons, IH.
  by rewrite app_assoc_str.
Qed.

Lemma chars_cons c s : chars (String c s) = String c "" :: chars s.
Proof. done. Qed.

Lemma join_chars s : Str.join "" (chars s) = s.
Proof.
  induction s as [|c s IH]; [done|].
  by rewrite chars_cons, join_empty_cons, IH.
Qed.

Lemma length_chars s : length (chars s) = String.length s.
Proof.
  induction s as [|c s IH]; [done|]. rewrite chars_cons. simpl. by f_equal.
Qed.

Lemma elem_of_chars c s :
  String c "" ∈ chars s ↔ ∃ i, String.get i s = Some c.
Proof.
  induction s as [|x s IH].
  - split; [by intros ?%elem_of_nil | by intros [[|?] ?]].
  - rewrite chars_cons, elem_of_cons, IH. split.
    + intros [[= ->] | [i Hi]]; [by exists 0%nat | by exists (S i)].
    + intros [[|i] Hi]; [left; by injection Hi as -> | right; by exists i].
Qed.

Lemma contains_char c s :
  Str.contains (String c "") s = true ↔ String c "" ∈ chars s.
Proof.
  induction s as [|x s IH]; [by rewrite elem_of_nil|].
  rewrite chars_cons, elem_of_cons. simpl.
  rewrite orb_true_iff, IH, andb_true_iff, bool_decide_eq_true.
  split; (intros [H|H]; [left|by right]).
  - by destruct H as [-> _].
  - injection H as ->. by destruct s.
Qed.

Lemma get_lt_length i s c : String.get i s = Some c → (i < String.length s)%nat.
Proof.
  revert i. induction s as [|x s IH]; intros [|i] H; simplify_eq/=; try lia.
  apply IH in H. lia.
Qed.

Lemma get_is_Some i s : (i < String.length s)%nat → is_Some (String.get i s).
Proof.
  revert i. induction s as [|x s IH]; intros [|i] H; simpl in *; try lia; eauto.
  apply IH. lia.
Qed.

End StringFacts.

(** ** What [_update_display] computes *)

Section UpdateDisplay.

Implicit Types (letter s t d a : string) (c x : ascii) (l pre : list string).

Lemma update_loop_beyond letter l i rest :
  (length l ≤ i)%nat →
  update_loop letter l i rest
  = if bool_decide (letter ∈ rest) then raise IndexError else mret l.
Proof.
  revert i. induction rest as [|c rest IH]; intros i Hi; [done|].
  simpl. destruct (decide (c = letter)) as [->|Hne].
  - rewrite bool_decide_eq_true_2 by done.
    rewrite bool_decide_eq_false_2 by lia.
    rewrite bool_decide_eq_true_2; [done | apply elem_of_cons; by left].
  - rewrite bool_decide_eq_false_2 by done.
    rewrite IH by lia.
    rewrite (bool_decide_ext (letter ∈ c :: rest) (letter ∈ rest)); [done|].
    rewrite elem_of_cons. split; [intros [->|?]|intros ?]; tauto.
Qed.

Lemma update_loop_reveal letter pre a d :
  Str.join "" <$> update_loop letter (pre ++ chars d) (length pre) (chars a)
  = (λ s, Str.join "" pre +:+ s) <$> reveal letter a d.
Proof.
  revert pre d. induction a as [|c a IH]; intros pre d.
  { simpl. unfold fmap, result_fmap, mret, result_ret.
    by rewrite join_empty_app, join_chars. }
  destruct d as [|x d].
  - rewrite update_loop_beyond by (rewrite length_app; simpl; lia).
    simpl reveal. destruct (bool_decide _); [done|].
    unfold fmap, result_fmap, mret, result_ret.
    by rewrite join_empty_app.
  - rewrite !chars_cons. simpl update_loop. simpl reveal.
    assert (Hstep : ∀ y,
      Str.join "" <$> update_loop letter ((pre ++ [y]) ++ chars d)
                        (S (length pre)) (chars a)
      = (λ s, Str.join "" pre +:+ s) <$>
          ((λ s, y +:+ s) <$> reveal letter a d)).
    { intros y. replace (S (length pre)) with (length (pre ++ [y]))
        by (rewrite length_app; simpl; lia).
      rewrite IH. destruct (reveal letter a d); [done|].
      unfold fmap, result_fmap.
      by rewrite join_empty_app, app_assoc_str, join_empty_cons, app_empty_r. }
    destruct (decide (String c "" = letter)) as [Heq|Hne].
    + rewrite !bool_decide_eq_true_2 by done.
      rewrite bool_decide_eq_true_2 by (rewrite length_app; simpl; lia).
      replace (<[length pre:=letter]> (pre ++ String x "" :: chars d))
        with ((pre ++ [letter]) ++ chars d).
      2:{ rewrite insert_app_r_alt by lia. rewrite Nat.sub_diag. simpl.
          by rewrite <- app_assoc. }
      rewrite Hstep, <- Heq. by destruct (reveal letter a d).
    + rewrite !bool_decide_eq_false_2 by done.
      replace (pre ++ String x "" :: chars d)
        with ((pre ++ [String x ""]) ++ chars d)
        by (by rewrite <- app_assoc).
      rewrite Hstep. by destruct (reveal letter a d).
Qed.

Lemma _update_display_reveal (g : HangmanGame) letter :
  _update_display g letter
  = (λ s, set_display_word s g) <$> reveal letter (answer g) (display_word g).
Proof.
  unfold _update_display.
  pose proof (update_loop_reveal letter [] (answer g) (display_word g)) as H.
  simpl in H.
  destruct (update_loop _ _ _ _) as [e|l], (reveal _ _ _) as [e'|s];
    unfold fmap, result_fmap in H; simplify_eq; simpl.
  all: unfold mret, result_ret, fmap, result_fmap; simpl; try done.
  by rewrite H, app_empty_l.
Qed.

End UpdateDisplay.

Section Reveal.

Implicit Types (letter s t d a : string) (c x : ascii).

Ltac unfold_result :=
  unfold mbind, result_bind, fmap, result_fmap, mret, result_ret, raise in *.

Lemma reveal_same_length letter a d :
  String.length d = String.length a →
  ∃ d', reveal letter a d = inr d'
        ∧ String.length d' = String.length a
        ∧ ∀ i c x, String.get i a = Some c → String.get i d = Some x →
            String.get i d'
            = Some (if bool_decide (String c "" = letter) then c else x).
Proof.
  revert d. induction a as [|c a IH]; intros [|x d] Hlen; simplify_eq/=.
  - exists "". split_and!; [done..|]. by intros [|?].
  - destruct (IH d Hlen) as (d' & -> & Hl & Hget).
    eexists. split_and!; [done|by simpl; f_equal|].
    intros [|i] c' x' ??; simplify_eq/=; eauto.
Qed.

Lemma reveal_idem letter a d :
  reveal letter a d ≫= reveal letter a = reveal letter a d.
Proof.
  revert d. induction a as [|c a IH]; intros [|x d]; try done.
  - simpl. by destruct (bool_decide _) eqn:E; simpl; rewrite ?E.
  - simpl. specialize (IH d).
    destruct (reveal letter a d) as [e|d']; [done|].
    unfold_result. simpl. rewrite IH.
    by destruct (bool_decide (String c "" = letter)).
Qed.

Lemma reveal_comm l1 l2 a d :
  reveal l1 a d ≫= reveal l2 a = reveal l2 a d ≫= reveal l1 a.
Proof.
  revert d. induction a as [|c a IH]; intros [|x d]; try done.
  - simpl.
    destruct (bool_decide (l1 ∈ _)) eqn:E1, (bool_decide (l2 ∈ _)) eqn:E2;
      simpl; rewrite ?E1, ?E2; done.
  - simpl. specialize (IH d).
    destruct (reveal l1 a d) as [[]|d1], (reveal l2 a d) as [[]|d2];
      unfold_result; simpl in *; try done.
    + by destruct (reveal l1 a d2) as [[]|?].
    + by destruct (reveal l2 a d1) as [[]|?].
    + destruct (reveal l2 a d1) as [[]|?], (reveal l1 a d2) as [[]|?];
        simplify_eq; try done.
      by repeat case_bool_decide.
Qed.

Lemma existsb_elem_of_cons letter (ls l : list string) :
  existsb (λ s, bool_decide (s ∈ letter :: ls)) l
  = bool_decide (letter ∈ l) || existsb (λ s, bool_decide (s ∈ ls)) l.
Proof.
  induction l as [|y l IHl]; [done|]. simpl. rewrite IHl.
  rewrite (bool_decide_ext (y ∈ letter :: ls) (y = letter ∨ y ∈ ls))
    by apply elem_of_cons.
  rewrite (bool_decide_ext (letter ∈ y :: l) (letter = y ∨ letter ∈ l))
    by apply elem_of_cons.
  repeat case_bool_decide; simplify_eq; simpl;
    rewrite ?orb_true_r; try done; intuition congruence.
Qed.

Lemma reveal_short letter c a :
  reveal letter (String c a) ""
  = if bool_decide (letter ∈ chars (String c a))
    then raise IndexError else mret "".
Proof. reflexivity. Qed.

Lemma reveal_where_short p c a :
  reveal_where p (String c a) ""
  = if existsb p (chars (String c a)) then raise IndexError else mret "".
Proof. reflexivity. Qed.

Lemma reveal_where_cons letter (ls : list string) a d :
  reveal letter a d ≫= reveal_where (λ s, bool_decide (s ∈ ls)) a
  = reveal_where (λ s, bool_decide (s ∈ letter :: ls)) a d.
Proof.
  revert d. induction a as [|c a IH]; intros [|x d]; try done.
  - rewrite reveal_short, reveal_where_short, existsb_elem_of_cons.
    destruct (bool_decide (letter ∈ _)); [done|].
    unfold_result. by rewrite reveal_where_short.
  - simpl. specialize (IH d).
    destruct (reveal letter a d) as [[]|d1]; unfold_result; simpl in *.
    + by rewrite <- IH.
    + rewrite <- IH.
      destruct (reveal_where _ a d1); [done|].
      rewrite (bool_decide_ext (String c "" ∈ letter :: ls)
                 (String c "" = letter ∨ String c "" ∈ ls))
        by apply elem_of_cons.
      by repeat case_bool_decide; try tauto.
Qed.

Lemma update_all_reveal_where (g : HangmanGame) (ls : list string) :
  update_all g ls
  = (λ s, set_display_word s g)
      <$> reveal_where (λ s, bool_decide (s ∈ ls)) (answer g) (display_word g).
Proof.
  revert g. induction ls as [|letter ls IH]; intros g.
  - simpl. assert (H : ∀ a d, reveal_where (λ s, bool_decide (s ∈ [])) a d
                              = inr d).
    { induction a as [|c a IHa]; intros [|x d]; try done.
      - simpl. replace (existsb _ _) with false; [done|].
        symmetry. apply not_true_is_false.
        by intros (y & _ & Hy)%existsb_exists.
      - simpl. by rewrite IHa. }
    rewrite H. by destruct g.
  - simpl. rewrite <- reveal_where_cons, _update_display_reveal.
    destruct (reveal letter _ _) as [[]|d1]; [done|].
    unfold_result. by rewrite IH.
Qed.

End Reveal.

Lemma reveal_where_ext (p q : string → bool) (a d : string) :
  (∀ s, p s = q s) → reveal_where p a d = reveal_where q a d.
Proof.
  intros Hpq. revert d. induction a as [|c a IH]; intros [|x d]; try done.
  - simpl. f_equal. clear IH.
    assert (H : ∀ l, existsb p l = existsb q l)
      by (induction l as [|y l IHl]; simpl; [done | by rewrite Hpq, IHl]).
    by rewrite !H, Hpq.
  - simpl. by rewrite IH, Hpq.
Qed.

(** C10. [_update_display] is idempotent and commutative, whatever the
    game and the two letters: revealing [a] twice is revealing it once,
    and revealing [a] then [b] is revealing [b] then [a] (an [IndexError]
    on one side is an [IndexError] on the other).  Hence the display after
    a series of reveals is a function of the set of letters revealed: the
    series can be replaced by the enumeration of its set. *)
Theorem update_display_idempotent_commutative
    (g : HangmanGame) (a b : string) (letters : list string) :
  (g' ← _update_display g a; _update_display g' a) = _update_display g a
  ∧ (g' ← _update_display g a; _update_display g' b)
    = (g' ← _update_display g b; _update_display g' a)
  ∧ update_all g letters
    = update_all g (elements (list_to_set letters : gset string)).
Proof.
  split_and!.
  - rewrite _update_display_reveal.
    pose proof (reveal_idem a (answer g) (display_word g)) as H.
    destruct (reveal a _ _) as [[]|d]; [done|].
    unfold mbind, result_bind, fmap, result_fmap in *.
    rewrite _update_display_reveal. simpl. by rewrite H.
  - rewrite !_update_display_reveal.
    pose proof (reveal_comm a b (answer g) (display_word g)) as H.
    destruct (reveal a _ _) as [[]|da], (reveal b _ _) as [[]|db];
      unfold mbind, result_bind, fmap, result_fmap in *;
      rewrite ?_update_display_reveal; simpl.
    + done.
    + by rewrite <- H.
    + by rewrite H.
    + by rewrite H.
  - rewrite !update_all_reveal_where. f_equal.
    apply reveal_where_ext. intros s. apply bool_decide_ext.
    rewrite elem_of_elements. by rewrite elem_of_list_to_set.
Qed.

Example update_display_order_ex :
  display_word <$> update_all phrase_game ["t"; "u"; "t"; "e"]
  = display_word <$> update_all phrase_game ["e"; "u"; "t"]
  ∧ display_word <$> update_all phrase_game ["e"; "u"; "t"] = inr "u__t te_t".
Proof. vm_compute. split; reflexivity. Qed.

(** ** One round of the loop *)

Section Round.

Implicit Types (g self : HangmanGame) (guess raw s : string) (c : ascii).

Lemma single_letter_check guess :
  negb (Str.len guess =? 1) || negb (Str.isalpha guess) = false
  ↔ single_letter guess.
Proof.
  unfold single_letter, Str.len. split.
  - intros [H1 H2]%orb_false_iff.
    apply negb_false_iff, Z.eqb_eq in H1. apply negb_false_iff in H2.
    destruct guess as [|c [|??]]; simpl in *; try lia.
    exists c. split; [done|]. by apply andb_true_iff in H2 as [? _].
  - intros (c & -> & Hc). simpl. by rewrite Hc.
Qed.

Lemma lower_nonempty s c : Str.lower s = String c "" → s ≠ "".
Proof. by destruct s. Qed.

Lemma truthy_Some s : s ≠ "" → truthy (Some s) = true.
Proof. by destruct s. Qed.

(** The three ways through the body for a guess that passes the check. *)
Lemma play_round_repeat g s :
  single_letter (Str.lower s) →
  Str.lower s ∈ guessed_letters g →
  play_round g (Some s)
  = inr (set_lives (lives g - 1) g,
         ["You've already guessed that letter. -1 life"]).
Proof.
  intros Hv Hin. unfold play_round.
  destruct Hv as (c & Hc & Halpha).
  rewrite truthy_Some by eauto using lower_nonempty. simpl.
  rewrite (proj2 (single_letter_check _)) by (exists c; eauto).
  by rewrite bool_decide_eq_true_2.
Qed.

Lemma play_round_hit g s :
  single_letter (Str.lower s) →
  Str.lower s ∉ guessed_letters g →
  Str.contains (Str.lower s) (answer g) = true →
  play_round g (Some s)
  = (self ← _update_display
              (set_guessed_letters ({[Str.lower s]} ∪ guessed_letters g) g)
              (Str.lower s);
     mret (self, ["Correct! Letter '" +:+ Str.lower s
                  +:+ "' is in the word."])).
Proof.
  intros Hv Hin Hc. unfold play_round.
  destruct Hv as (c & Hl & Halpha).
  rewrite truthy_Some by eauto using lower_nonempty. simpl.
  rewrite (proj2 (single_letter_check _)) by (exists c; eauto).
  rewrite bool_decide_eq_false_2 by done. simpl. by rewrite Hc.
Qed.

Lemma play_round_miss g s :
  single_letter (Str.lower s) →
  Str.lower s ∉ guessed_letters g →
  Str.contains (Str.lower s) (answer g) = false →
  play_round g (Some s)
  = inr (set_lives (lives g - 1)
           (set_guessed_letters ({[Str.lower s]} ∪ guessed_letters g) g),
         ["Wrong! Letter '" +:+ Str.lower s +:+ "' is not in the word."]).
Proof.
  intros Hv Hin Hc. unfold play_round.
  destruct Hv as (c & Hl & Halpha).
  rewrite truthy_Some by eauto using lower_nonempty. simpl.
  rewrite (proj2 (single_letter_check _)) by (exists c; eauto).
  rewrite bool_decide_eq_false_2 by done. simpl. by rewrite Hc.
Qed.

Lemma play_round_invalid g s :
  s ≠ "" → ¬ single_letter (Str.lower s) →
  play_round g (Some s) = inr (g, ["Please enter a single letter."]).
Proof.
  intros Hs Hv. unfold play_round. rewrite truthy_Some by done. simpl.
  destruct (negb (Str.len (Str.lower s) =? 1) || _) eqn:E; [done|].
  by apply single_letter_check in E.
Qed.

Lemma play_round_falsy g (x : option string) :
  truthy x = false →
  play_round g x
  = inr (set_lives (lives g - 1) g, ["Time is up! You lost a life."]).
Proof. intros H. unfold play_round. by rewrite H. Qed.

(** Every pass through the body is one of the five above. *)
Lemma play_round_cases g (x : option string) :
  truthy x = false
  ∨ ∃ s, x = Some s ∧ s ≠ "" ∧
      (¬ single_letter (Str.lower s)
       ∨ single_letter (Str.lower s) ∧
           (Str.lower s ∈ guessed_letters g
            ∨ (Str.lower s ∉ guessed_letters g) ∧
                (Str.contains (Str.lower s) (answer g) = true
                 ∨ Str.contains (Str.lower s) (answer g) = false))).
Proof.
  destruct x as [[|c s]|]; [by left| |by left].
  right. eexists; split_and!; [done..|].
  destruct (negb (Str.len (Str.lower (String c s)) =? 1)
            || negb (Str.isalpha (Str.lower (String c s)))) eqn:E.
  - left. intros Hv%single_letter_check. congruence.
  - right. split; [by apply single_letter_check|].
    destruct (decide (Str.lower (String c s) ∈ guessed_letters g));
      [by left|right]. split; [done|].
    by destruct (Str.contains _ _); [left|right].
Qed.

End Round.

(** C1, the part that holds: a committed line that is not blank and is not
    one letter once normalized changes nothing, and the player is asked
    for a single letter. *)
Lemma invalid_line_changes_nothing (g : HangmanGame) (raw : string) :
  Str.strip raw ≠ "" → ¬ single_letter (normalized raw) →
  play_round g (timed_input (Committed raw))
  = inr (g, ["Please enter a single letter."]).
Proof. intros. by apply play_round_invalid. Qed.

(** C1. The claim fails at the blank line.  A committed line that strips
    to the empty string is not one letter, yet [if not guess] takes it for
    a timeout: the round prints the timeout message and takes a life. *)
Theorem blank_line_costs_a_life (g : HangmanGame) :
  ¬ single_letter (normalized "")
  ∧ play_round g (timed_input (Committed ""))
    = inr (set_lives (lives g - 1) g, ["Time is up! You lost a life."])
  ∧ play_round g (timed_input (Committed "   "))
    = inr (set_lives (lives g - 1) g, ["Time is up! You lost a life."])
  ∧ lives (set_lives (lives g - 1) g) ≠ lives g.
Proof.
  split_and!; try done.
  - by intros (c & ? & _).
  - simpl. lia.
Qed.

(** C5. Guessing again a letter that is in [guessed_letters] takes exactly
    one life and leaves the display and the set of guessed letters as they
    were; [raw] is any line that normalizes to the letter. *)
Theorem repeat_guess_costs_one_life (g : HangmanGame) (raw : string) :
  single_letter (normalized raw) →
  normalized raw ∈ guessed_letters g →
  ∃ g' out,
    play_round g (timed_input (Committed raw)) = inr (g', out)
    ∧ out = ["You've already guessed that letter. -1 life"]
    ∧ lives g' = lives g - 1
    ∧ display_word g' = display_word g
    ∧ guessed_letters g' = guessed_letters g
    ∧ answer g' = answer g.
Proof.
  intros Hv Hin. eexists _, _. split; [by apply play_round_repeat|]. done.
Qed.

Lemma repeat_guess_costs_one_life_witness :
  ∃ g' out,
    play_round (set_guessed_letters {["p"]} word_game)
               (timed_input (Committed " P ")) = inr (g', out)
    ∧ out = ["You've already guessed that letter. -1 life"]
    ∧ lives g' = 3 - 1
    ∧ display_word g' = "_____"
    ∧ guessed_letters g' = {["p"]}
    ∧ answer g' = "apple".
Proof.
  refine (repeat_guess_costs_one_life
            (set_guessed_letters {["p"]} word_game) " P " _ _).
  - exists "p"%char. split; reflexivity.
  - vm_compute. reflexivity.
Defined.

(** C6. A timeout takes exactly one life and changes nothing else. *)
Theorem timeout_costs_one_life (g : HangmanGame) :
  ∃ g' out,
    play_round g (timed_input Deadline) = inr (g', out)
    ∧ out = ["Time is up! You lost a life."]
    ∧ g' = set_lives (lives g - 1) g
    ∧ lives g' = lives g - 1
    ∧ guessed_letters g' = guessed_letters g
    ∧ display_word g' = display_word g
    ∧ answer g' = answer g.
Proof. by eexists _, _. Qed.

(** ** The reveal mask *)

Section Mask.

Implicit Types (g : HangmanGame) (s a d : string) (c x : ascii).

Lemma shown_spec g c :
  shown g c = true
  ↔ Char.isalpha c = false ∨ String c "" ∈ guessed_letters g.
Proof.
  unfold shown.
  by rewrite orb_true_iff, negb_true_iff, bool_decide_eq_true.
Qed.

Lemma mask_ok_invariant g : mask_ok g → RevealMask_invariant g.
Proof.
  intros [Hlen Hget]. split; [done|]. intros i c Hc.
  eexists. split; [by apply Hget|]. rewrite <- shown_spec.
  destruct (shown g c) eqn:E.
  - split; [done|]. by intros [].
  - split; [|done]. split; [|done]. intros <-.
    unfold shown in E. by apply orb_false_iff in E as [E _].
Qed.

Lemma init_display_cells a :
  String.length
    (Str.join "" ((λ s, if Str.isalpha s then "_" else s) <$> chars a))
  = String.length a
  ∧ ∀ i c, String.get i a = Some c →
      String.get i
        (Str.join "" ((λ s, if Str.isalpha s then "_" else s) <$> chars a))
      = Some (if Char.isalpha c then "_"%char else c).
Proof.
  induction a as [|x a [IHl IHg]].
  { split; [done|]. by intros [|?]. }
  rewrite chars_cons, fmap_cons, join_empty_cons.
  assert (Hx : (if Str.isalpha (String x "") then "_" else String x "")
               = String (if Char.isalpha x then "_"%char else x) "").
  { simpl. rewrite andb_true_r. by destruct (Char.isalpha x). }
  rewrite Hx, app_cons, app_empty_l. split; [simpl; by f_equal|].
  intros [|i] c Hc; simplify_eq/=; eauto.
Qed.

Lemma init_spec W B max m tl r g0 r' :
  __init__ W B max m tl r = inr (g0, r') →
  lives g0 = max ∧ max_lives g0 = max ∧ guessed_letters g0 = ∅
  ∧ display_word g0 = _init_display g0
  ∧ words g0 = W ∧ brown_words g0 = B ∧ mode g0 = m
  ∧ _choose_word (mkGame W B max max m tl "" ∅ "") r = inr (answer g0, r').
Proof.
  unfold __init__. destruct (_choose_word _ r) as [e|[a r1]]; [done|].
  simpl. intros [= <- <-]. done.
Qed.

Lemma init_mask_ok W B max m tl r g0 r' :
  __init__ W B max m tl r = inr (g0, r') → mask_ok g0.
Proof.
  intros (_ & _ & HG & Hd & _)%init_spec.
  destruct (init_display_cells (answer g0)) as [Hl Hc].
  unfold mask_ok. rewrite Hd. unfold _init_display. split; [done|].
  intros i c Hi. rewrite (Hc i c Hi). unfold shown. rewrite HG.
  rewrite bool_decide_eq_false_2 by apply not_elem_of_empty.
  rewrite orb_false_r. by destruct (Char.isalpha c).
Qed.

Lemma not_contains_get letter a i c :
  Str.contains letter a = false → String.get i a = Some c →
  String c "" ≠ letter.
Proof.
  intros Hn Hi <-.
  assert (Str.contains (String c "") a = true); [|congruence].
  apply contains_char, elem_of_chars. eauto.
Qed.

Lemma shown_add_other (G : gset string) c letter :
  String c "" ≠ letter →
  bool_decide (String c "" ∈ {[letter]} ∪ G) = bool_decide (String c "" ∈ G).
Proof.
  intros Hne. apply bool_decide_ext.
  rewrite elem_of_union, elem_of_singleton. tauto.
Qed.

(** A round from a state with a sound mask returns, keeps the mask
    sound, and takes at most one life. *)
Lemma play_round_mask_ok g (x : option string) :
  mask_ok g →
  ∃ g' out, play_round g x = inr (g', out) ∧ mask_ok g'
    ∧ (lives g' = lives g ∨ lives g' = lives g - 1)
    ∧ answer g' = answer g.
Proof.
  intros [Hlen Hget].
  destruct (play_round_cases g x)
    as [Hf | (s & -> & Hs & [Hv | [Hv [Hin | [Hnin [Hc | Hc]]]]])].
  - rewrite play_round_falsy by done. eexists _, _.
    split_and!; [done| |by right|done]. by split.
  - rewrite play_round_invalid by done. eexists _, _.
    split_and!; [done| |by left|done]. by split.
  - rewrite play_round_repeat by done. eexists _, _.
    split_and!; [done| |by right|done]. by split.
  - rewrite play_round_hit, _update_display_reveal by done. simpl.
    destruct (reveal_same_length (Str.lower s) _ _ Hlen)
      as (d' & -> & Hl' & Hg').
    eexists _, _. split_and!; [done| |by left|done].
    split; [done|]. simpl. intros i c Hi.
    destruct (get_is_Some i (display_word g)) as [x0 Hx0];
      [rewrite Hlen; by eapply get_lt_length|].
    rewrite (Hg' i c x0 Hi Hx0). rewrite (Hget i c Hi) in Hx0.
    injection Hx0 as <-. f_equal. unfold shown. simpl.
    case_bool_decide as E.
    + rewrite bool_decide_eq_true_2 by set_solver.
      by rewrite orb_true_r.
    + by rewrite shown_add_other.
  - rewrite play_round_miss by done. eexists _, _.
    split_and!; [done| |by right|done].
    split; [done|]. simpl. intros i c Hi. rewrite (Hget i c Hi).
    f_equal. unfold shown. simpl.
    pose proof (not_contains_get _ _ _ _ Hc Hi).
    by rewrite shown_add_other.
Qed.

Lemma reachable_mask_ok g0 g : mask_ok g0 → reachable g0 g → mask_ok g.
Proof.
  intros H0. induction 1 as [|g rd g' out _ IH _ Hstep]; [done|].
  destruct (play_round_mask_ok g (timed_input rd) IH)
    as (g1 & out1 & Hr & Hok & _).
  rewrite Hr in Hstep. by injection Hstep as <- _.
Qed.

End Mask.

(** C3. In every state the loop reaches from a constructed game, the
    display has the length of the answer, and at each position it holds the
    answer's character exactly when that character is not a letter or has
    been guessed, and the placeholder otherwise.  This holds of the game as
    constructed, and every round from a reached state, whatever the player
    does (a guess, a repeat, an invalid line, a timeout), returns and keeps
    it. *)
Theorem reveal_mask_invariant
    (WORDS_LIST BROWN_WORDS : list string) (max : Z) (m : string) (tl : Z)
    (r r' : Random.state) (g0 g : HangmanGame) :
  __init__ WORDS_LIST BROWN_WORDS max m tl r = inr (g0, r') →
  reachable g0 g →
  RevealMask_invariant g0
  ∧ RevealMask_invariant g
  ∧ ∀ rd, ∃ g' out,
      play_round g (timed_input rd) = inr (g', out) ∧ RevealMask_invariant g'.
Proof.
  intros Hinit Hreach.
  pose proof (init_mask_ok _ _ _ _ _ _ _ _ Hinit) as H0.
  pose proof (reachable_mask_ok _ _ H0 Hreach) as Hg.
  split_and!; try by apply mask_ok_invariant.
  intros rd.
  destruct (play_round_mask_ok g (timed_input rd) Hg) as (g' & out & ? & ? & _).
  exists g', out. split; [done|]. by apply mask_ok_invariant.
Qed.

Lemma reveal_mask_invariant_witness :
  RevealMask_invariant word_game
  ∧ RevealMask_invariant after_p
  ∧ ∀ rd, ∃ g' out,
      play_round after_p (timed_input rd) = inr (g', out)
      ∧ RevealMask_invariant g'.
Proof.
  refine (reveal_mask_invariant ["apple"] ["unit"; "test"] 3 "basic" 5
            (const_rand 7) (const_rand 7) word_game after_p _ _).
  - vm_compute. reflexivity.
  - refine (reach_round _ word_game (Committed "p") after_p
              ["Correct! Letter 'p' is in the word."] (reach_start _) _ _).
    + reflexivity.
    + vm_compute. reflexivity.
Defined.

(** C4. A letter that has not been guessed and occurs in the answer: the
    round reveals it at every position where the answer has it, leaves the
    other positions alone, reports the guess as correct and keeps the
    lives.  [raw] is any line that normalizes to the letter [c]. *)
Theorem correct_guess_reveals_all (g : HangmanGame) (raw : string) (c : ascii) :
  normalized raw = String c "" →
  Char.isalpha c = true →
  String c "" ∉ guessed_letters g →
  (∃ i, String.get i (answer g) = Some c) →
  String.length (display_word g) = String.length (answer g) →
  ∃ g',
    play_round g (timed_input (Committed raw))
    = inr (g', ["Correct! Letter '" +:+ String c "" +:+ "' is in the word."])
    ∧ lives g' = lives g
    ∧ (∀ i, String.get i (answer g) = Some c →
            String.get i (display_word g') = Some c)
    ∧ (∀ i x, String.get i (answer g) = Some x → x ≠ c →
              String.get i (display_word g') = String.get i (display_word g))
    ∧ String.length (display_word g') = String.length (answer g)
    ∧ guessed_letters g' = {[String c ""]} ∪ guessed_letters g
    ∧ answer g' = answer g.
Proof.
  unfold normalized. intros Hn Halpha Hnin Hocc Hlen. simpl.
  assert (Hv : single_letter (Str.lower (Str.strip raw)))
    by (exists c; by rewrite Hn).
  assert (Hnin' : Str.lower (Str.strip raw) ∉ guessed_letters g)
    by (by rewrite Hn).
  assert (Hc : Str.contains (Str.lower (Str.strip raw)) (answer g) = true)
    by (rewrite Hn; by apply contains_char, elem_of_chars).
  rewrite (play_round_hit g _ Hv Hnin' Hc), _update_display_reveal, Hn.
  simpl. destruct (reveal_same_length (String c "") _ _ Hlen)
    as (d' & -> & Hl' & Hg').
  eexists. split_and!; try done; simpl.
  - intros i Hi.
    destruct (get_is_Some i (display_word g)) as [x0 Hx0];
      [rewrite Hlen; by eapply get_lt_length|].
    rewrite (Hg' i c x0 Hi Hx0). by rewrite bool_decide_eq_true_2.
  - intros i x Hi Hne.
    destruct (get_is_Some i (display_word g)) as [x0 Hx0];
      [rewrite Hlen; by eapply get_lt_length|].
    rewrite (Hg' i x x0 Hi Hx0), Hx0.
    rewrite bool_decide_eq_false_2; [done|]. by intros [= ->].
Qed.

Lemma correct_guess_reveals_all_witness :
  ∃ g',
    play_round word_game (timed_input (Committed "P"))
    = inr (g', ["Correct! Letter 'p' is in the word."])
    ∧ lives g' = 3
    ∧ (∀ i, String.get i "apple" = Some "p"%char →
            String.get i (display_word g') = Some "p"%char)
    ∧ (∀ i x, String.get i "apple" = Some x → x ≠ "p"%char →
              String.get i (display_word g') = String.get i "_____")
    ∧ String.length (display_word g') = 5%nat
    ∧ guessed_letters g' = {["p"]} ∪ ∅
    ∧ answer g' = "apple".
Proof.
  refine (correct_guess_reveals_all word_game "P" "p"%char _ _ _ _ _).
  - reflexivity.
  - reflexivity.
  - apply not_elem_of_empty.
  - exists 1%nat. reflexivity.
  - reflexivity.
Defined.

(** ** The loop as a whole *)

Lemma reachable_front g g1 g' rd out :
  in_progress g = true →
  play_round g (timed_input rd) = inr (g1, out) →
  reachable g1 g' → reachable g g'.
Proof.
  intros Hprog Hstep. induction 1 as [|h rd' h' out' _ IH Hp Hs].
  - eapply reach_round; [apply reach_start|done..].
  - eapply reach_round; [exact IH|done..].
Qed.

(** From a state with a sound mask the loop returns on every series of
    readings, and the state it ends in is one the loop reaches. *)
Lemma play_loop_returns (inputs : list reading) (g : HangmanGame) :
  mask_ok g →
  ∃ g' out, play_loop inputs g = inr (g', out) ∧ reachable g g'.
Proof.
  revert g. induction inputs as [|rd inputs IH]; intros g Hok; simpl.
  - destruct (in_progress g); eexists _, _; split; try done; constructor.
  - destruct (in_progress g) eqn:Hprog.
    2:{ eexists _, _; split; [done|constructor]. }
    destruct (play_round_mask_ok g (timed_input rd) Hok)
      as (g1 & out1 & Hr & Hok1 & _).
    destruct (IH g1 Hok1) as (g' & out & Hl & Hreach).
    rewrite Hr. unfold mbind, result_bind. rewrite Hl.
    eexists _, _. split; [done|]. by eapply reachable_front.
Qed.

(** ** Lives *)

Lemma reachable_lives g0 g :
  mask_ok g0 → 0 ≤ lives g0 → reachable g0 g → 0 ≤ lives g ≤ lives g0.
Proof.
  intros H0 Hpos. induction 1 as [|g rd g' out Hreach IH Hprog Hstep]; [lia|].
  pose proof (reachable_mask_ok _ _ H0 Hreach) as Hg.
  destruct (play_round_mask_ok g (timed_input rd) Hg)
    as (g1 & out1 & Hr & _ & Hl & _).
  rewrite Hr in Hstep. injection Hstep as <- _.
  unfold in_progress, is_lost in Hprog.
  apply andb_true_iff in Hprog as [Hprog _].
  apply negb_true_iff, Z.leb_gt in Hprog. lia.
Qed.

(** C7. A game constructed with a maximum of lives that is not negative
    starts with that many lives; every state the loop reaches has between
    0 and the maximum, and every round the loop runs from such a state
    returns with as many lives or one fewer, never below 0. *)
Theorem lives_floor_and_monotone
    (WORDS_LIST BROWN_WORDS : list string) (max : Z) (m : string) (tl : Z)
    (r r' : Random.state) (g0 g : HangmanGame) :
  0 ≤ max →
  __init__ WORDS_LIST BROWN_WORDS max m tl r = inr (g0, r') →
  reachable g0 g →
  lives g0 = max
  ∧ 0 ≤ lives g ≤ max
  ∧ ∀ rd, in_progress g = true →
      ∃ g' out, play_round g (timed_input rd) = inr (g', out)
        ∧ lives g' ≤ lives g ∧ 0 ≤ lives g'.
Proof.
  intros Hmax Hinit Hreach.
  pose proof (init_mask_ok _ _ _ _ _ _ _ _ Hinit) as H0.
  apply init_spec in Hinit as (Hl0 & _).
  split; [done|]. split.
  - rewrite <- Hl0. apply reachable_lives; [done|lia|done].
  - intros rd Hprog.
    pose proof (reachable_mask_ok _ _ H0 Hreach) as Hg.
    destruct (play_round_mask_ok g (timed_input rd) Hg)
      as (g' & out & Hr & _ & Hl & _).
    exists g', out. split; [done|].
    unfold in_progress, is_lost in Hprog.
    apply andb_true_iff in Hprog as [Hprog _].
    apply negb_true_iff, Z.leb_gt in Hprog. lia.
Qed.

Lemma lives_floor_and_monotone_witness :
  lives word_game = 3
  ∧ 0 ≤ lives after_p ≤ 3
  ∧ ∀ rd, in_progress after_p = true →
      ∃ g' out, play_round after_p (timed_input rd) = inr (g', out)
        ∧ lives g' ≤ lives after_p ∧ 0 ≤ lives g'.
Proof.
  refine (lives_floor_and_monotone ["apple"] ["unit"; "test"] 3 "basic" 5
            (const_rand 7) (const_rand 7) word_game after_p _ _ _).
  - lia.
  - vm_compute. reflexivity.
  - refine (reach_round _ word_game (Committed "p") after_p
              ["Correct! Letter 'p' is in the word."] (reach_start _) _ _).
    + reflexivity.
    + vm_compute. reflexivity.
Defined.

(** ** Choosing the answer *)

Section CharFacts.

Implicit Types (c : ascii) (s t w : string).

Lemma lower_islower c : Char.isalpha c = true → Char.islower (Char.lower c) = true.
Proof. destruct c as [[] [] [] [] [] [] [] []]; vm_compute; congruence. Qed.

Lemma islower_lower c : Char.islower c = true → Char.lower c = c.
Proof. destruct c as [[] [] [] [] [] [] [] []]; vm_compute; congruence. Qed.

Lemma islower_not_space c : Char.islower c = true → Char.isspace c = false.
Proof. destruct c as [[] [] [] [] [] [] [] []]; vm_compute; congruence. Qed.

Lemma length_lower s : String.length (Str.lower s) = String.length s.
Proof. induction s as [|c s IH]; [done|]. simpl. by f_equal. Qed.

Lemma lower_cons c s :
  Str.lower (String c s) = String (Char.lower c) (Str.lower s).
Proof. reflexivity. Qed.

Lemma lower_app s t : Str.lower (s +:+ t) = Str.lower s +:+ Str.lower t.
Proof.
  induction s as [|c s IH]; [done|]. rewrite app_cons. simpl.
  by rewrite IH.
Qed.

Lemma all_islower_lower s :
  Str.all Char.islower s = true → Str.lower s = s.
Proof.
  induction s as [|c s IH]; [done|]. simpl.
  intros [Hc Hs]%andb_true_iff. by rewrite islower_lower, IH.
Qed.

Lemma isalpha_lower w :
  Str.isalpha w = true →
  Str.lower w ≠ "" ∧ Str.all Char.islower (Str.lower w) = true.
Proof.
  destruct w as [|c w]; [done|]. unfold Str.isalpha. intros H.
  split; [done|]. revert H. generalize (String c w). clear.
  induction s as [|c s IH]; [done|]. simpl.
  intros [Hc Hs]%andb_true_iff. by rewrite lower_islower, IH.
Qed.

End CharFacts.

Section Pools.

Implicit Types (w t s : string) (l ws : list string) (r : Random.state).

Lemma words_list_spec nltk_words brown t :
  t ∈ (load_word_lists nltk_words brown).1 →
  lowercase_word t ∧ Str.len t ≤ MAX_WORD_LENGTH.
Proof.
  unfold load_word_lists. simpl.
  intros (w & -> & Hw)%list_elem_of_fmap.
  apply list_elem_of_filter in Hw as [Hw _].
  apply andb_true_iff in Hw as [Ha Hl]. apply Z.leb_le in Hl.
  split; [by apply isalpha_lower|].
  unfold Str.len in *. by rewrite length_lower.
Qed.

Lemma brown_words_spec nltk_words brown t :
  t ∈ (load_word_lists nltk_words brown).2 → lowercase_word t.
Proof.
  unfold load_word_lists. simpl.
  intros (w & -> & Hw)%list_elem_of_fmap.
  apply list_elem_of_filter in Hw as [Hw _]. by apply isalpha_lower.
Qed.

Lemma choice_nonempty {A} (seq : list A) r :
  seq ≠ [] →
  ∃ x r', Random.choice seq r = inr (x, r') ∧ x ∈ seq.
Proof.
  intros Hne. unfold Random.choice, Random.randbelow.
  destruct seq as [|a seq]; [done|].
  set (l := a :: seq).
  destruct (lookup_lt_is_Some_2 l (r 0%nat `mod` length l)%nat) as [x Hx].
  { apply Nat.mod_upper_bound. simpl. lia. }
  rewrite Hx. exists x, (Random.advance r). split; [done|].
  by eapply list_elem_of_lookup_2.
Qed.

Lemma choice_empty {A} r : Random.choice (@nil A) r = inl IndexError.
Proof. done. Qed.

Lemma choices_nonempty {A} (n : nat) (seq : list A) r :
  seq ≠ [] →
  ∃ xs r', Random.choices n seq r = inr (xs, r')
    ∧ length xs = n ∧ Forall (λ x, x ∈ seq) xs.
Proof.
  intros Hne. revert r. induction n as [|n IH]; intros r.
  { exists [], r. by split_and!. }
  simpl. destruct (choice_nonempty seq r Hne) as (x & r1 & -> & Hx).
  destruct (IH r1) as (xs & r2 & Hxs & Hlen & Hall).
  unfold mbind, result_bind. rewrite Hxs.
  exists (x :: xs), r2. split_and!; [done|by simpl; f_equal|by constructor].
Qed.

Lemma randint_3_5 r :
  ∃ k, (k < 3)%nat ∧ Random.randint 3 5 r = (3 + Z.of_nat k, Random.advance r).
Proof.
  exists (r 0%nat `mod` 3)%nat. split; [|done].
  by apply Nat.mod_upper_bound.
Qed.

End Pools.

Section SplitJoin.

Implicit Types (t s cur : string) (ws : list string).

Lemma rev_app_rev_app t u v :
  String.rev_app (String.rev_app t u) v = String.rev_app u (t +:+ v).
Proof.
  revert u v. induction t as [|c t IH]; intros u v; [done|].
  simpl. by rewrite IH.
Qed.

Lemma rev_rev_app t : String.rev (String.rev_app t "") = t.
Proof.
  unfold String.rev. rewrite rev_app_rev_app. simpl. apply app_empty_r.
Qed.

Lemma rev_app_nonempty t cur : t ≠ "" → String.rev_app t cur ≠ "".
Proof.
  revert cur. induction t as [|c [|c' t] IH]; intros cur Ht; [done..|].
  simpl. by apply (IH (String c cur)).
Qed.

Lemma split_go_token t cur s :
  Str.all Char.islower t = true →
  Str.split_go cur (t +:+ s) = Str.split_go (String.rev_app t cur) s.
Proof.
  revert cur. induction t as [|c t IH]; intros cur Ht; [done|].
  simpl in Ht. apply andb_true_iff in Ht as [Hc Ht].
  rewrite app_cons. simpl. by rewrite islower_not_space, IH.
Qed.

Lemma flush_token t : t ≠ "" → Str.flush (String.rev_app t "") = [t].
Proof.
  intros Ht. pose proof (rev_app_nonempty t "" Ht) as Hne.
  unfold Str.flush. destruct (String.rev_app t "") eqn:E; [done|].
  by rewrite <- E, rev_rev_app.
Qed.

Lemma split_join ws :
  Forall lowercase_word ws → Str.split (Str.join " " ws) = ws.
Proof.
  unfold Str.split. induction 1 as [|t ws [Ht Hl] Hws IH]; [done|].
  destruct ws as [|t' ws].
  - change (Str.join " " [t]) with t.
    rewrite <- (app_empty_r t) at 1. rewrite split_go_token by done.
    simpl. by apply flush_token.
  - change (Str.join " " (t :: t' :: ws))
      with (t +:+ String " " (Str.join " " (t' :: ws))).
    rewrite split_go_token by done.
    change (Str.split_go (String.rev_app t "")
              (String " " (Str.join " " (t' :: ws))))
      with (Str.flush (String.rev_app t "")
              ++ Str.split_go "" (Str.join " " (t' :: ws))).
    by rewrite flush_token, IH.
Qed.

Lemma lower_join ws :
  Forall lowercase_word ws →
  Str.lower (Str.join " " ws) = Str.join " " ws.
Proof.
  induction 1 as [|t ws [Ht Hl] Hws IH]; [done|].
  destruct ws as [|t' ws]; [by apply all_islower_lower|].
  change (Str.join " " (t :: t' :: ws))
    with (t +:+ String " " (Str.join " " (t' :: ws))).
  rewrite lower_app, lower_cons, IH, all_islower_lower by done.
  done.
Qed.

End SplitJoin.

(** C2, as stated, fails: with an empty word pool construction does fail,
    but not with an error called [NoCandidatesAvailable]; the module
    defines no such class, and what [random.choice] raises is an
    [IndexError]. *)
Lemma empty_pool_error_is_not_NoCandidatesAvailable :
  ¬ raises_named "NoCandidatesAvailable"
      (__init__ [] ["unit"; "test"] 6 "basic" 15 (const_rand 0))
  ∧ ¬ raises_named "NoCandidatesAvailable"
        (__init__ ["apple"] [] 6 "intermediate" 15 (const_rand 0)).
Proof.
  split; intros (e & He & Hn); destruct e; discriminate Hn.
Qed.

(** C2. With an empty pool for the mode played, [__init__] raises: the
    exception is the [IndexError] of [random.choice], no game object comes
    to exist, and so [play] cannot start.  The single-word mode is
    ["basic"]; any other mode string is the phrase mode. *)
Theorem empty_pool_aborts_construction
    (WORDS_LIST BROWN_WORDS : list string) (max : Z) (m : string) (tl : Z)
    (r : Random.state) :
  m ≠ "basic" →
  __init__ [] BROWN_WORDS max "basic" tl r = inl IndexError
  ∧ __init__ WORDS_LIST [] max m tl r = inl IndexError.
Proof.
  intros Hm. split; [done|].
  unfold __init__, _choose_word. cbn [mode brown_words].
  rewrite bool_decide_eq_false_2 by done.
  destruct (randint_3_5 r) as (k & _ & ->).
  replace (Z.to_nat (3 + Z.of_nat k)) with (S (2 + k)) by lia.
  done.
Qed.

Lemma empty_pool_aborts_construction_witness :
  __init__ [] ["unit"; "test"] 6 "basic" 15 (const_rand 0) = inl IndexError
  ∧ __init__ ["apple"] [] 6 "intermediate" 15 (const_rand 0) = inl IndexError.
Proof.
  apply (empty_pool_aborts_construction ["apple"] ["unit"; "test"] 6
           "intermediate" 15 (const_rand 0)).
  intros H. discriminate H.
Defined.

(** C8. In the single-word mode, when the word list that [load_word_lists]
    builds is not empty, construction succeeds and the answer is a member
    of that list, is made of lowercase letters only, and is at most
    [MAX_WORD_LENGTH] long. *)
Theorem basic_answer_from_pool
    (nltk_words brown : list string) (max tl : Z) (r : Random.state) :
  (load_word_lists nltk_words brown).1 ≠ [] →
  ∃ g r',
    __init__ (load_word_lists nltk_words brown).1
             (load_word_lists nltk_words brown).2 max "basic" tl r
    = inr (g, r')
    ∧ answer g ∈ (load_word_lists nltk_words brown).1
    ∧ Str.all Char.islower (answer g) = true
    ∧ Str.len (answer g) ≤ MAX_WORD_LENGTH.
Proof.
  intros Hne. unfold __init__, _choose_word. cbn [mode words].
  rewrite bool_decide_eq_true_2 by done.
  destruct (choice_nonempty _ r Hne) as (w & r1 & -> & Hw).
  destruct (words_list_spec _ _ _ Hw) as [[Hw1 Hw2] Hlen].
  eexists _, _. split; [done|]. simpl.
  rewrite all_islower_lower by done. done.
Qed.

Lemma basic_answer_from_pool_witness :
  ∃ g r',
    __init__ (load_word_lists ["Apple"; "x-ray"; "Pneumonia"] ["Unit"]).1
             (load_word_lists ["Apple"; "x-ray"; "Pneumonia"] ["Unit"]).2
             6 "basic" 15 (const_rand 4)
    = inr (g, r')
    ∧ answer g ∈ (load_word_lists ["Apple"; "x-ray"; "Pneumonia"] ["Unit"]).1
    ∧ Str.all Char.islower (answer g) = true
    ∧ Str.len (answer g) ≤ MAX_WORD_LENGTH.
Proof.
  apply (basic_answer_from_pool ["Apple"; "x-ray"; "Pneumonia"] ["Unit"]
           6 15 (const_rand 4)).
  vm_compute. intros H. discriminate H.
Defined.

(** C9. In the phrase mode, when the token list that [load_word_lists]
    builds is not empty, construction succeeds and the answer splits on
    white space into three to five tokens, each a member of that list;
    joined by single spaces, the tokens give the answer back. *)
Theorem phrase_answer_tokens
    (nltk_words brown : list string) (max : Z) (m : string) (tl : Z)
    (r : Random.state) :
  m ≠ "basic" →
  (load_word_lists nltk_words brown).2 ≠ [] →
  ∃ g r',
    __init__ (load_word_lists nltk_words brown).1
             (load_word_lists nltk_words brown).2 max m tl r
    = inr (g, r')
    ∧ (3 ≤ length (Str.split (answer g)) ≤ 5)%nat
    ∧ Forall (λ t, t ∈ (load_word_lists nltk_words brown).2)
             (Str.split (answer g))
    ∧ Str.join " " (Str.split (answer g)) = answer g.
Proof.
  intros Hm Hne. unfold __init__, _choose_word. cbn [mode brown_words].
  rewrite bool_decide_eq_false_2 by done.
  destruct (randint_3_5 r) as (k & Hk & ->).
  destruct (choices_nonempty (Z.to_nat (3 + Z.of_nat k)) _
              (Random.advance r) Hne) as (ws & r2 & -> & Hlen & Hall).
  assert (Hws : Forall lowercase_word ws).
  { eapply Forall_impl; [exact Hall|]. intros t. apply brown_words_spec. }
  eexists _, _. split; [done|]. simpl.
  rewrite lower_join, split_join by done.
  split_and!; [lia|lia|done|done].
Qed.

Lemma phrase_answer_tokens_witness :
  ∃ g r',
    __init__ (load_word_lists ["Apple"] ["Unit"; "4th"; "TEST"]).1
             (load_word_lists ["Apple"] ["Unit"; "4th"; "TEST"]).2
             6 "intermediate" 15 (λ k, k)
    = inr (g, r')
    ∧ (3 ≤ length (Str.split (answer g)) ≤ 5)%nat
    ∧ Forall (λ t, t ∈ (load_word_lists ["Apple"] ["Unit"; "4th"; "TEST"]).2)
             (Str.split (answer g))
    ∧ Str.join " " (Str.split (answer g)) = answer g.
Proof.
  apply (phrase_answer_tokens ["Apple"] ["Unit"; "4th"; "TEST"] 6
           "intermediate" 15 (λ k, k)).
  - intros H. discriminate H.
  - vm_compute. intros H. discriminate H.
Defined.

(** * Further properties of the code *)

(** ** [_update_display] on its own *)

Lemma reveal_absent (letter a d : string) :
  letter ∉ chars a → reveal letter a d = inr d.
Proof.
  revert d. induction a as [|c a IH]; intros [|x d] Hn; try done.
  - rewrite reveal_short. by rewrite bool_decide_eq_false_2.
  - rewrite chars_cons in Hn. apply not_elem_of_cons in Hn as [Hc Ha].
    simpl. rewrite (IH d Ha).
    rewrite bool_decide_eq_false_2 by congruence. done.
Qed.

Lemma reveal_outcome (letter a d : string) :
  match reveal letter a d with
  | inl _ =>
      ∃ i, (String.length d ≤ i)%nat ∧ chars a !! i = Some letter
  | inr d' =>
      String.length d' = String.length d
      ∧ ¬ ∃ i, (String.length d ≤ i)%nat ∧ chars a !! i = Some letter
  end.
Proof.
  revert d. induction a as [|c a IH]; intros [|x d].
  - simpl. split; [done|]. by intros (i & _ & ?).
  - simpl. split; [done|]. by intros (i & _ & ?).
  - rewrite reveal_short. case_bool_decide as E.
    + apply list_elem_of_lookup_1 in E as [i Hi]. exists i.
      split; [simpl; lia | done].
    + split; [done|]. intros (i & _ & Hi). apply E.
      by eapply list_elem_of_lookup_2.
  - simpl. specialize (IH d). destruct (reveal letter a d) as [e|d'].
    + destruct IH as (i & Hi & Hl). exists (S i). simpl. split; [lia|done].
    + destruct IH as [Hlen Hno]. simpl. split; [by f_equal|].
      intros ([|i] & Hi & Hl); simpl in *; [lia|].
      apply Hno. exists i. split; [lia|done].
Qed.

(** X1. A [letter] that is no character of the answer (any string that is
    not one character long is one) leaves the game as it is, whatever the
    display. *)
Theorem update_display_absent_letter (g : HangmanGame) (letter : string) :
  letter ∉ chars (answer g) → _update_display g letter = inr g.
Proof.
  intros Hn. rewrite _update_display_reveal, reveal_absent by done.
  by destruct g.
Qed.

Lemma update_display_absent_letter_witness :
  _update_display phrase_game "un" = inr phrase_game.
Proof.
  apply (update_display_absent_letter phrase_game "un").
  apply (bool_decide_unpack _). vm_compute. exact I.
Defined.

(** X2. [_update_display] raises [IndexError] exactly when the letter
    stands in the answer at a position past the end of the display;
    otherwise it returns the game with a display of the same length and
    nothing else changed. *)
Theorem update_display_outcome (g : HangmanGame) (letter : string) :
  match _update_display g letter with
  | inl e =>
      e = IndexError
      ∧ ∃ i, (String.length (display_word g) ≤ i)%nat
             ∧ chars (answer g) !! i = Some letter
  | inr g' =>
      String.length (display_word g') = String.length (display_word g)
      ∧ g' = set_display_word (display_word g') g
      ∧ ¬ ∃ i, (String.length (display_word g) ≤ i)%nat
               ∧ chars (answer g) !! i = Some letter
  end.
Proof.
  rewrite _update_display_reveal.
  pose proof (reveal_outcome letter (answer g) (display_word g)) as H.
  destruct (reveal letter _ _) as [[]|d']; simpl; [done|].
  destruct H as [Hl Hno]. done.
Qed.

Example update_display_short_display_ex :
  _update_display (set_display_word "___" word_game) "e" = inl IndexError
  ∧ display_word <$> _update_display (set_display_word "___" word_game) "p"
    = inr "_pp".
Proof. vm_compute. split; reflexivity. Qed.

(** ** What a round leaves alone *)

Lemma play_round_effect (g g' : HangmanGame) (x : option string)
    (out : list string) :
  play_round g x = inr (g', out) →
  ∃ n G d,
    g' = set_display_word d (set_guessed_letters G (set_lives n g))
    ∧ (G = guessed_letters g
       ∨ ∃ s, x = Some s ∧ single_letter (Str.lower s)
              ∧ G = {[Str.lower s]} ∪ guessed_letters g)
    ∧ (n = lives g ∨ (n = lives g - 1 ∧ d = display_word g)).
Proof.
  destruct (play_round_cases g x)
    as [Hf | (s & -> & Hs & [Hv | [Hv [Hin | [Hnin [Hc | Hc]]]]])].
  - rewrite play_round_falsy by done. intros [= <- _].
    exists (lives g - 1), (guessed_letters g), (display_word g).
    split_and!; [by destruct g|by left|by right].
  - rewrite play_round_invalid by done. intros [= <- _].
    exists (lives g), (guessed_letters g), (display_word g).
    split_and!; [by destruct g|by left|by left].
  - rewrite play_round_repeat by done. intros [= <- _].
    exists (lives g - 1), (guessed_letters g), (display_word g).
    split_and!; [by destruct g|by left|by right].
  - rewrite play_round_hit, _update_display_reveal by done. simpl.
    destruct (reveal _ _ _) as [e|d']; [done|]. simpl. intros [= <- _].
    exists (lives g), ({[Str.lower s]} ∪ guessed_letters g), d'.
    split_and!; [by destruct g| |by left]. right. by exists s.
  - rewrite play_round_miss by done. intros [= <- _].
    exists (lives g - 1), ({[Str.lower s]} ∪ guessed_letters g),
      (display_word g).
    split_and!; [by destruct g| |by right]. right. by exists s.
Qed.

Lemma reachable_frame (g0 g : HangmanGame) :
  reachable g0 g →
  answer g = answer g0 ∧ words g = words g0
  ∧ brown_words g = brown_words g0 ∧ max_lives g = max_lives g0
  ∧ mode g = mode g0 ∧ time_limit g = time_limit g0.
Proof.
  induction 1 as [|g rd g' out _ IH _ Hstep]; [done|].
  apply play_round_effect in Hstep as (n & G & d & -> & _). done.
Qed.

Lemma reachable_guessed_subset (g0 g : HangmanGame) :
  reachable g0 g → guessed_letters g0 ⊆ guessed_letters g.
Proof.
  induction 1 as [|g rd g' out _ IH _ Hstep]; [done|].
  apply play_round_effect in Hstep as (n & G & d & -> & HG & _). simpl.
  destruct HG as [->|(s & _ & _ & ->)]; [done|].
  intros y Hy. apply elem_of_union. right. by apply IH.
Qed.

(** X3. The loop never touches the configuration of the game: in every
    state reached, the answer, the two word lists, the maximum of lives,
    the mode and the time limit are those of the start. *)
Theorem play_keeps_configuration (g0 g : HangmanGame) :
  reachable g0 g →
  answer g = answer g0 ∧ words g = words g0
  ∧ brown_words g = brown_words g0 ∧ max_lives g = max_lives g0
  ∧ mode g = mode g0 ∧ time_limit g = time_limit g0.
Proof. apply reachable_frame. Qed.

Lemma play_keeps_configuration_witness :
  answer after_p = answer word_game ∧ words after_p = words word_game
  ∧ brown_words after_p = brown_words word_game
  ∧ max_lives after_p = max_lives word_game
  ∧ mode after_p = mode word_game ∧ time_limit after_p = time_limit word_game.
Proof.
  apply (play_keeps_configuration word_game after_p).
  refine (reach_round _ word_game (Committed "p") after_p
            ["Correct! Letter 'p' is in the word."] (reach_start _) _ _).
  - reflexivity.
  - vm_compute. reflexivity.
Defined.

(** ** The guessed letters *)

(** X4. The set of guessed letters only grows along the loop. *)
Theorem guessed_letters_only_grow (g0 g : HangmanGame) :
  reachable g0 g → guessed_letters g0 ⊆ guessed_letters g.
Proof. apply reachable_guessed_subset. Qed.

Lemma guessed_letters_only_grow_witness :
  guessed_letters word_game ⊆ guessed_letters after_p.
Proof.
  apply (guessed_letters_only_grow word_game after_p).
  refine (reach_round _ word_game (Committed "p") after_p
            ["Correct! Letter 'p' is in the word."] (reach_start _) _ _).
  - reflexivity.
  - vm_compute. reflexivity.
Defined.

(** X5. In every state reached from a constructed game, each element of
    the set of guessed letters is one character, a letter, and is the
    lowered text of a line that passed the check of the loop: an invalid
    line or a timeout never gets into the set, and no line gets in as
    typed before lowering. *)
Theorem guessed_letters_are_lowered_letters
    (WORDS_LIST BROWN_WORDS : list string) (max : Z) (m : string) (tl : Z)
    (r r' : Random.state) (g0 g : HangmanGame) (x : string) :
  __init__ WORDS_LIST BROWN_WORDS max m tl r = inr (g0, r') →
  reachable g0 g →
  x ∈ guessed_letters g →
  single_letter x ∧ ∃ s, s ≠ "" ∧ x = Str.lower s.
Proof.
  intros (_ & _ & HG & _)%init_spec Hreach. revert x.
  induction Hreach as [|g rd g' out _ IH _ Hstep]; intros x Hx.
  { rewrite HG in Hx. by apply not_elem_of_empty in Hx. }
  apply play_round_effect in Hstep as (n & G & d & -> & HG' & _).
  simpl in Hx. destruct HG' as [->|(s & _ & Hs & ->)]; [eauto|].
  apply elem_of_union in Hx as [Hx%elem_of_singleton|Hx]; [|eauto].
  subst x. split; [done|]. exists s. split; [|done].
  destruct Hs as (c & Hc & _). by eapply lower_nonempty.
Qed.

Lemma guessed_letters_are_lowered_letters_witness :
  single_letter "p" ∧ ∃ s, s ≠ "" ∧ "p" = Str.lower s.
Proof.
  refine (guessed_letters_are_lowered_letters ["apple"] ["unit"; "test"] 3
            "basic" 5 (const_rand 7) (const_rand 7) word_game after_p "p"
            _ _ _).
  - vm_compute. reflexivity.
  - refine (reach_round _ word_game (Committed "P") after_p
              ["Correct! Letter 'p' is in the word."] (reach_start _) _ _).
    + reflexivity.
    + vm_compute. reflexivity.
  - vm_compute. reflexivity.
Defined.

(** ** Winning and losing *)

Lemma contains_placeholder (d : string) :
  Str.contains "_" d = true ↔ ∃ i, String.get i d = Some "_"%char.
Proof. by rewrite (contains_char "_" d), elem_of_chars. Qed.

Lemma mask_ok_won (g : HangmanGame) :
  mask_ok g →
  is_won g = true
  ↔ ∀ i c, String.get i (answer g) = Some c →
      c ≠ "_"%char
      ∧ (Char.isalpha c = true → String c "" ∈ guessed_letters g).
Proof.
  intros [Hlen Hget]. unfold is_won. rewrite negb_true_iff. split.
  - intros Hw i c Hi. pose proof (Hget i c Hi) as Hd.
    assert (Hno : String.get i (display_word g) ≠ Some "_"%char).
    { intros Hu. apply not_true_iff_false in Hw. apply Hw.
      apply contains_placeholder. eauto. }
    destruct (shown g c) eqn:E; [|congruence]. split; [congruence|].
    intros Ha. apply shown_spec in E as [E|E]; [congruence|done].
  - intros Hall. apply not_true_iff_false.
    intros (i & Hi)%contains_placeholder.
    destruct (get_is_Some i (answer g)) as [c Hc];
      [rewrite <- Hlen; by eapply get_lt_length|].
    destruct (Hall i c Hc) as [Hne Hg]. rewrite (Hget i c Hc) in Hi.
    destruct (shown g c) eqn:E; [congruence|].
    apply not_true_iff_false in E. apply E, shown_spec.
    destruct (Char.isalpha c); [right; by apply Hg | by left].
Qed.

(** X6. In every state reached from a constructed game, the game is won
    exactly when every letter of the answer has been guessed (and no
    character of the answer is the placeholder itself). *)
Theorem won_iff_all_letters_guessed
    (WORDS_LIST BROWN_WORDS : list string) (max : Z) (m : string) (tl : Z)
    (r r' : Random.state) (g0 g : HangmanGame) :
  __init__ WORDS_LIST BROWN_WORDS max m tl r = inr (g0, r') →
  reachable g0 g →
  is_won g = true
  ↔ ∀ i c, String.get i (answer g) = Some c →
      c ≠ "_"%char
      ∧ (Char.isalpha c = true → String c "" ∈ guessed_letters g).
Proof.
  intros Hinit Hreach. apply mask_ok_won.
  eapply reachable_mask_ok; [|done]. by eapply init_mask_ok.
Qed.

Lemma won_iff_all_letters_guessed_witness :
  is_won after_p = true
  ↔ ∀ i c, String.get i (answer after_p) = Some c →
      c ≠ "_"%char
      ∧ (Char.isalpha c = true → String c "" ∈ guessed_letters after_p).
Proof.
  refine (won_iff_all_letters_guessed ["apple"] ["unit"; "test"] 3 "basic" 5
            (const_rand 7) (const_rand 7) word_game after_p _ _).
  - vm_compute. reflexivity.
  - refine (reach_round _ word_game (Committed "p") after_p
              ["Correct! Letter 'p' is in the word."] (reach_start _) _ _).
    + reflexivity.
    + vm_compute. reflexivity.
Defined.

(** X7. A cell of the display that shows a character keeps showing it:
    between two states of one game, the later reached from the earlier,
    nothing revealed is hidden again or replaced. *)
Theorem revealed_cells_stay
    (WORDS_LIST BROWN_WORDS : list string) (max : Z) (m : string) (tl : Z)
    (r r' : Random.state) (g0 g1 g2 : HangmanGame) (i : nat) (c : ascii) :
  __init__ WORDS_LIST BROWN_WORDS max m tl r = inr (g0, r') →
  reachable g0 g1 → reachable g1 g2 →
  String.get i (display_word g1) = Some c → c ≠ "_"%char →
  String.get i (display_word g2) = Some c.
Proof.
  intros Hinit H01 H12 Hi Hc.
  pose proof (init_mask_ok _ _ _ _ _ _ _ _ Hinit) as H0.
  pose proof (reachable_mask_ok _ _ H0 H01) as [Hl1 Hg1].
  pose proof (reachable_mask_ok _ _ (reachable_mask_ok _ _ H0 H01) H12)
    as [Hl2 Hg2].
  pose proof (reachable_frame g1 g2 H12) as [Ha _].
  pose proof (reachable_guessed_subset g1 g2 H12) as Hsub.
  destruct (get_is_Some i (answer g1)) as [a Hai];
    [rewrite <- Hl1; by eapply get_lt_length|].
  rewrite (Hg1 i a Hai) in Hi.
  destruct (shown g1 a) eqn:E; [|congruence]. injection Hi as <-.
  rewrite <- Ha in Hai. rewrite (Hg2 i a Hai).
  assert (shown g2 a = true) as ->; [|done].
  apply shown_spec. apply shown_spec in E as [E|E]; [by left|right].
  by apply Hsub.
Qed.

Lemma revealed_cells_stay_witness :
  String.get 1 (display_word after_pa) = Some "p"%char.
Proof.
  refine (revealed_cells_stay ["apple"] ["unit"; "test"] 3 "basic" 5
            (const_rand 7) (const_rand 7) word_game after_p after_pa 1
            "p"%char _ _ _ _ _).
  - vm_compute. reflexivity.
  - refine (reach_round _ word_game (Committed "p") after_p
              ["Correct! Letter 'p' is in the word."] (reach_start _) _ _).
    + reflexivity.
    + vm_compute. reflexivity.
  - refine (reach_round _ after_p (Committed "a") after_pa
              ["Correct! Letter 'a' is in the word."] (reach_start _) _ _).
    + reflexivity.
    + vm_compute. reflexivity.
  - reflexivity.
  - intros H. discriminate H.
Defined.

Lemma in_progress_spec (g : HangmanGame) :
  in_progress g = true ↔ 0 < lives g ∧ is_won g = false.
Proof.
  unfold in_progress, is_lost.
  rewrite andb_true_iff, !negb_true_iff, Z.leb_gt. done.
Qed.

Lemma reachable_won_alive (g0 g : HangmanGame) :
  0 < lives g0 → reachable g0 g → is_won g = true → 0 < lives g.
Proof.
  intros H0. induction 1 as [|g rd g' out _ IH Hprog Hstep]; [done|].
  apply in_progress_spec in Hprog as [Hl Hw].
  apply play_round_effect in Hstep as (n & G & d & -> & _ & Hn).
  unfold is_won in *. simpl.
  destruct Hn as [->|[-> ->]]; [done|]. congruence.
Qed.

(** X8. A game constructed with at least one life is never won and lost at
    once in a state the loop reaches, so the verdict [play] prints after
    the loop names the one outcome. *)
Theorem won_and_lost_exclude
    (WORDS_LIST BROWN_WORDS : list string) (max : Z) (m : string) (tl : Z)
    (r r' : Random.state) (g0 g : HangmanGame) :
  1 ≤ max →
  __init__ WORDS_LIST BROWN_WORDS max m tl r = inr (g0, r') →
  reachable g0 g →
  is_won g && is_lost g = false.
Proof.
  intros Hmax (Hl & _)%init_spec Hreach.
  destruct (is_won g) eqn:Hw; [|done]. simpl.
  apply Z.leb_gt. eapply reachable_won_alive; [|done..]. lia.
Qed.

Lemma won_and_lost_exclude_witness : is_won after_pa && is_lost after_pa = false.
Proof.
  refine (won_and_lost_exclude ["apple"] ["unit"; "test"] 3 "basic" 5
            (const_rand 7) (const_rand 7) word_game after_pa _ _ _).
  - lia.
  - vm_compute. reflexivity.
  - refine (reach_round _ after_p (Committed "a") after_pa
              ["Correct! Letter 'a' is in the word."] _ _ _).
    + refine (reach_round _ word_game (Committed "p") after_p
                ["Correct! Letter 'p' is in the word."] (reach_start _) _ _).
      * reflexivity.
      * vm_compute. reflexivity.
    + reflexivity.
    + vm_compute. reflexivity.
Defined.

(** X9. Timeouts alone lose the game: from a state that is not won, as
    many timeouts in a row as there are lives left end the loop with no
    life, the display and the guessed letters as they were; the loop reads
    nothing after that. *)
Theorem timeouts_lose (g : HangmanGame) (n : nat) (later : list reading) :
  is_won g = false →
  lives g = Z.of_nat n →
  ∃ out,
    play_loop (replicate n Deadline ++ later) g = inr (set_lives 0 g, out)
    ∧ is_lost (set_lives 0 g) = true.
Proof.
  revert g. induction n as [|n IH]; intros g Hw Hl.
  - exists []. split; [|done].
    assert (Hin : in_progress g = false).
    { apply not_true_iff_false. intros [? _]%in_progress_spec. lia. }
    destruct later; simpl; rewrite Hin; destruct g; simpl in *; by subst.
  - assert (Hin : in_progress g = true)
      by (apply in_progress_spec; split; [lia|done]).
    destruct (IH (set_lives (lives g - 1) g)) as (out & Hout & _);
      [done|simpl; lia|].
    simpl. rewrite Hin. unfold mbind, result_bind. simpl in *.
    rewrite Hout. eexists. split; [|done]. done.
Qed.

Lemma timeouts_lose_witness :
  ∃ out,
    play_loop (replicate 3 Deadline ++ [Committed "a"]) after_p
    = inr (set_lives 0 after_p, out)
    ∧ is_lost (set_lives 0 after_p) = true.
Proof.
  apply (timeouts_lose after_p 3 [Committed "a"]); reflexivity.
Defined.

(** ** Games built from the word lists *)

Section FromWordLists.

Implicit Types (s t w : string) (c : ascii) (ws : list string).

Lemma choice_elem {A} (seq : list A) r x r' :
  Random.choice seq r = inr (x, r') → x ∈ seq.
Proof.
  destruct seq as [|a seq]; [done|]. intros H.
  destruct (choice_nonempty (a :: seq) r) as (y & r1 & Hy & Hin); [done|].
  rewrite H in Hy. by injection Hy as -> _.
Qed.

Lemma choices_elem {A} n (seq : list A) r xs r' :
  Random.choices n seq r = inr (xs, r') →
  length xs = n ∧ Forall (λ x, x ∈ seq) xs.
Proof.
  destruct seq as [|a seq].
  { destruct n; [by intros [= <- _]|done]. }
  intros H.
  destruct (choices_nonempty n (a :: seq) r) as (ys & r1 & Hy & ? & ?);
    [done|].
  rewrite H in Hy. by injection Hy as -> _.
Qed.

Lemma islower_isalpha c : Char.islower c = true → Char.isalpha c = true.
Proof. unfold Char.isalpha. intros ->. apply orb_true_r. Qed.

Lemma all_app p s t : Str.all p (s +:+ t) = Str.all p s && Str.all p t.
Proof.
  induction s as [|c s IH]; [done|]. rewrite app_cons. simpl.
  by rewrite IH, andb_assoc.
Qed.

Lemma all_get p s i c :
  Str.all p s = true → String.get i s = Some c → p c = true.
Proof.
  revert i. induction s as [|x s IH]; intros [|i] Hall Hi; simplify_eq/=;
    apply andb_true_iff in Hall as [Hx Hs]; eauto.
Qed.

Lemma all_lower_answer_char t :
  Str.all Char.islower t = true → Str.all answer_char t = true.
Proof.
  induction t as [|c t IH]; [done|]. simpl.
  intros [Hc Ht]%andb_true_iff. unfold answer_char at 1.
  by rewrite Hc, IH.
Qed.

Lemma join_words_chars ws :
  Forall lowercase_word ws → Str.all answer_char (Str.join " " ws) = true.
Proof.
  induction 1 as [|t ws [Ht Hl] Hws IH]; [done|].
  destruct ws as [|t' ws]; [by apply all_lower_answer_char|].
  change (Str.join " " (t :: t' :: ws))
    with (t +:+ String " " (Str.join " " (t' :: ws))).
  rewrite all_app, all_lower_answer_char by done. simpl in *. by rewrite IH.
Qed.

Lemma join_words_first ws :
  ws ≠ [] → Forall lowercase_word ws →
  ∃ c, String.get 0 (Str.join " " ws) = Some c ∧ Char.islower c = true.
Proof.
  intros Hne Hall. destruct Hall as [|t ws [Ht Hl] Hws]; [done|].
  destruct t as [|c t]; [done|]. exists c.
  simpl in Hl. apply andb_true_iff in Hl as [Hc _].
  split; [|done]. by destruct ws.
Qed.

Lemma init_answer_words nltk_words brown max m tl r g0 r' :
  __init__ (load_word_lists nltk_words brown).1
           (load_word_lists nltk_words brown).2 max m tl r = inr (g0, r') →
  ∃ ws, ws ≠ [] ∧ Forall lowercase_word ws ∧ answer g0 = Str.join " " ws.
Proof.
  intros (_ & _ & _ & _ & _ & _ & _ & Hc)%init_spec.
  unfold _choose_word in Hc. cbn [mode words brown_words] in Hc.
  case_bool_decide as Hm.
  - destruct (Random.choice _ r) as [e|[w r1]] eqn:E; [done|].
    injection Hc as Ha _. apply choice_elem in E.
    apply words_list_spec in E as [[Hw1 Hw2] _].
    exists [w]. split_and!; [done|by repeat constructor|].
    rewrite <- Ha. by apply all_islower_lower.
  - destruct (randint_3_5 r) as (k & Hk & Hr). rewrite Hr in Hc.
    destruct (Random.choices _ _ _) as [e|[ws r2]] eqn:E; [done|].
    injection Hc as Ha _. apply choices_elem in E as [Hlen Hall].
    assert (Hws : Forall lowercase_word ws).
    { eapply Forall_impl; [exact Hall|]. intros t. apply brown_words_spec. }
    exists ws. split_and!; [|done|].
    + intros ->. simpl in Hlen. lia.
    + rewrite <- Ha. by apply lower_join.
Qed.

Lemma init_not_won nltk_words brown max m tl r g0 r' :
  __init__ (load_word_lists nltk_words brown).1
           (load_word_lists nltk_words brown).2 max m tl r = inr (g0, r') →
  is_won g0 = false
  ∧ ∀ i x, String.get i (display_word g0) = Some x →
      x = "_"%char ∨ x = " "%char.
Proof.
  intros Hinit.
  destruct (init_answer_words _ _ _ _ _ _ _ _ Hinit) as (ws & Hne & Hws & Ha).
  pose proof (init_mask_ok _ _ _ _ _ _ _ _ Hinit) as [Hlen Hget].
  apply init_spec in Hinit as (_ & _ & HG & _).
  assert (Hcell : ∀ i a, String.get i (answer g0) = Some a →
            String.get i (display_word g0)
            = Some (if Char.islower a then "_"%char else " "%char)).
  { intros i a Hi. rewrite (Hget i a Hi). f_equal.
    assert (Hac : answer_char a = true).
    { eapply all_get; [|exact Hi]. rewrite Ha. by apply join_words_chars. }
    unfold shown. rewrite HG.
    rewrite bool_decide_eq_false_2 by apply not_elem_of_empty.
    rewrite orb_false_r. unfold answer_char in Hac.
    destruct (Char.islower a) eqn:El.
    - by rewrite islower_isalpha.
    - simpl in Hac. apply bool_decide_eq_true in Hac as ->. done. }
  split.
  - unfold is_won. apply negb_false_iff, contains_placeholder. exists 0%nat.
    destruct (join_words_first ws Hne Hws) as (c & Hc & Hl).
    rewrite <- Ha in Hc. by rewrite (Hcell _ _ Hc), Hl.
  - intros i x Hi.
    destruct (get_is_Some i (answer g0)) as [a Hai];
      [rewrite <- Hlen; by eapply get_lt_length|].
    rewrite (Hcell i a Hai) in Hi. injection Hi as <-.
    destruct (Char.islower a); [by left|by right].
Qed.

End FromWordLists.

(** X10. A game built from the word lists with at least one life starts in
    progress: no letter is guessed, the lives are the maximum, and the
    display shows placeholders and spaces only, at least one placeholder,
    so it is not won. *)
Theorem fresh_game_in_progress
    (nltk_words brown : list string) (max : Z) (m : string) (tl : Z)
    (r r' : Random.state) (g0 : HangmanGame) :
  1 ≤ max →
  __init__ (load_word_lists nltk_words brown).1
           (load_word_lists nltk_words brown).2 max m tl r = inr (g0, r') →
  in_progress g0 = true
  ∧ is_won g0 = false
  ∧ guessed_letters g0 = ∅
  ∧ lives g0 = max
  ∧ ∀ i x, String.get i (display_word g0) = Some x →
      x = "_"%char ∨ x = " "%char.
Proof.
  intros Hmax Hinit.
  destruct (init_not_won _ _ _ _ _ _ _ _ Hinit) as [Hw Hd].
  apply init_spec in Hinit as (Hl & _ & HG & _).
  split_and!; try done. apply in_progress_spec. split; [lia|done].
Qed.

Lemma fresh_game_in_progress_witness :
  in_progress unit_phrase_game = true
  ∧ is_won unit_phrase_game = false
  ∧ guessed_letters unit_phrase_game = ∅
  ∧ lives unit_phrase_game = 3
  ∧ ∀ i x, String.get i (display_word unit_phrase_game) = Some x →
      x = "_"%char ∨ x = " "%char.
Proof.
  refine (fresh_game_in_progress ["Apple"] ["Unit"; "TEST"] 3 "intermediate" 5
            (const_rand 0) (const_rand 0) unit_phrase_game _ _).
  - lia.
  - vm_compute. reflexivity.
Defined.

(** X11. A game built from the word lists with no life to start with is
    lost before any guess: the loop runs no round, reads no input, and
    [play] ends on the game-over line that discloses the answer. *)
Theorem no_lives_no_round
    (nltk_words brown : list string) (max : Z) (m : string) (tl : Z)
    (r r' : Random.state) (g0 : HangmanGame) (inputs : list reading) :
  max ≤ 0 →
  __init__ (load_word_lists nltk_words brown).1
           (load_word_lists nltk_words brown).2 max m tl r = inr (g0, r') →
  is_lost g0 = true
  ∧ play_loop inputs g0 = inr (g0, [])
  ∧ ∃ banner,
      play g0 inputs
      = inr (g0, banner ++ [Str.newline
                            +:+ "Game Over! The correct answer was: "
                            +:+ answer g0]).
Proof.
  intros Hmax Hinit.
  destruct (init_not_won _ _ _ _ _ _ _ _ Hinit) as [Hw _].
  apply init_spec in Hinit as (Hl & _).
  assert (Hlost : is_lost g0 = true) by (apply Z.leb_le; lia).
  assert (Hin : in_progress g0 = false)
    by (unfold in_progress; by rewrite Hlost).
  assert (Hloop : play_loop inputs g0 = inr (g0, []))
    by (destruct inputs; simpl; by rewrite Hin).
  split_and!; [done..|].
  unfold play. rewrite Hloop. simpl. rewrite Hin, Hw.
  by eexists [_; _; _; _].
Qed.

Lemma no_lives_no_round_witness :
  is_lost lifeless_game = true
  ∧ play_loop [Committed "a"] lifeless_game = inr (lifeless_game, [])
  ∧ ∃ banner,
      play lifeless_game [Committed "a"]
      = inr (lifeless_game,
             banner ++ [Str.newline
                        +:+ "Game Over! The correct answer was: "
                        +:+ answer lifeless_game]).
Proof.
  refine (no_lives_no_round ["Apple"] [] 0 "basic" 5 (const_rand 0)
            (const_rand 0) lifeless_game [Committed "a"] _ _).
  - lia.
  - vm_compute. reflexivity.
Defined.

(** ** Winning *)

Section Winning.

Implicit Types (g : HangmanGame) (c : ascii) (s t x : string)
  (L : list string).

Lemma get_ext s t :
  String.length s = String.length t →
  (∀ i c, String.get i t = Some c → String.get i s = Some c) →
  s = t.
Proof.
  revert s. induction t as [|c t IH]; intros [|x s] Hlen Hget; try done.
  pose proof (Hget 0%nat c eq_refl) as H0. injection H0 as ->.
  f_equal. apply IH; [by injection Hlen|].
  intros i a Hi. exact (Hget (S i) a Hi).
Qed.

Lemma strip_single c :
  Char.isspace c = false → Str.strip (String c "") = String c "".
Proof. intros H. unfold Str.strip. simpl. rewrite H. simpl. by rewrite H. Qed.

Lemma guess_letter_round g c :
  mask_ok g → Char.islower c = true →
  String c "" ∉ guessed_letters g → String c "" ∈ chars (answer g) →
  ∃ g' out,
    play_round g (timed_input (Committed (String c ""))) = inr (g', out)
    ∧ mask_ok g' ∧ lives g' = lives g ∧ answer g' = answer g
    ∧ guessed_letters g' = {[String c ""]} ∪ guessed_letters g.
Proof.
  intros Hok Hc Hnin Hin.
  destruct (play_round_mask_ok g (timed_input (Committed (String c ""))) Hok)
    as (g' & out & Hr & Hok' & _ & Ha).
  exists g', out. split_and!; try done.
  - revert Hr. simpl. rewrite strip_single by by apply islower_not_space.
    assert (Hl : Str.lower (String c "") = String c "")
      by (simpl; by rewrite islower_lower).
    rewrite play_round_hit, _update_display_reveal; rewrite ?Hl; try done.
    + destruct (reveal _ _ _); [done|]. by intros [= <- _].
    + exists c. split; [done|]. by apply islower_isalpha.
    + by apply contains_char.
  - revert Hr. simpl. rewrite strip_single by by apply islower_not_space.
    assert (Hl : Str.lower (String c "") = String c "")
      by (simpl; by rewrite islower_lower).
    rewrite play_round_hit, _update_display_reveal; rewrite ?Hl; try done.
    + destruct (reveal _ _ _); [done|]. by intros [= <- _].
    + exists c. split; [done|]. by apply islower_isalpha.
    + by apply contains_char.
Qed.

Lemma win_by_letters L g (later : list reading) :
  mask_ok g → 0 < lives g → NoDup L →
  (∀ x, x ∈ L →
     (∃ c, x = String c "" ∧ Char.islower c = true)
     ∧ x ∈ chars (answer g) ∧ x ∉ guessed_letters g) →
  (∀ i c, String.get i (answer g) = Some c →
     c ≠ "_"%char
     ∧ (Char.isalpha c = true →
        String c "" ∈ L ∨ String c "" ∈ guessed_letters g)) →
  ∃ g' out,
    play_loop ((Committed <$> L) ++ later) g = inr (g', out)
    ∧ is_won g' = true ∧ lives g' = lives g
    ∧ display_word g' = answer g.
Proof.
  revert g. induction L as [|x L IH]; intros g Hok Hl Hnd HL Hcov.
  - assert (Hw : is_won g = true).
    { apply mask_ok_won; [done|]. intros i c Hi.
      destruct (Hcov i c Hi) as [Hne Hg]. split; [done|].
      intros Ha. destruct (Hg Ha) as [H|H]; [|done].
      by apply elem_of_nil in H. }
    assert (Hin : in_progress g = false)
      by (unfold in_progress; rewrite Hw; apply andb_false_r).
    exists g, []. split_and!; try done.
    + simpl. destruct later; simpl; by rewrite Hin.
    + destruct Hok as [Hlen Hget]. apply get_ext; [done|].
      intros i c Hi. rewrite (Hget i c Hi).
      assert (shown g c = true) as ->; [|done].
      apply shown_spec. destruct (Hcov i c Hi) as [_ Hg].
      destruct (Char.isalpha c); [|by left]. right.
      destruct (Hg eq_refl) as [H|H]; [by apply elem_of_nil in H|done].
  - destruct (HL x) as ((c & -> & Hc) & Hin & Hnin); [by left|].
    assert (Hw : is_won g = false).
    { apply not_true_iff_false. intros Hw.
      apply elem_of_chars in Hin as [i Hi].
      pose proof (proj1 (mask_ok_won g Hok) Hw) as Hall.
      destruct (Hall i c Hi) as [_ Hg].
      apply Hnin, Hg. by apply islower_isalpha. }
    assert (Hprog : in_progress g = true) by (by apply in_progress_spec).
    destruct (guess_letter_round g c Hok Hc Hnin Hin)
      as (g1 & out1 & Hr & Hok1 & Hl1 & Ha1 & HG1).
    apply NoDup_cons in Hnd as [Hx Hnd].
    destruct (IH g1) as (g' & out & Hloop & Hw' & Hl' & Hd'); try done.
    + lia.
    + intros y Hy. destruct (HL y) as (Hy1 & Hy2 & Hy3); [by right|].
      rewrite Ha1, HG1. split_and!; try done.
      intros [->%elem_of_singleton|?]%elem_of_union; done.
    + intros i a Hi. rewrite Ha1 in Hi.
      destruct (Hcov i a Hi) as [Hne Hg]. split; [done|].
      intros Halpha. rewrite HG1.
      destruct (Hg Halpha) as [[->|H]%elem_of_cons|H].
      * right. apply elem_of_union. left. by apply elem_of_singleton.
      * by left.
      * right. apply elem_of_union. by right.
    + exists g'. eexists. split_and!; try congruence.
      rewrite fmap_cons, <- app_comm_cons. simpl play_loop.
      rewrite Hprog. simpl in Hr. simpl. rewrite Hr.
      unfold mbind, result_bind. rewrite Hloop. done.
Qed.

Lemma chars_single x s : x ∈ chars s → ∃ c, x = String c "".
Proof. intros (c & -> & _)%list_elem_of_fmap. eauto. Qed.

End Winning.

(** X12. Every game built from the word lists with at least one life can
    be won without losing a life: when the player commits each letter of
    the answer once, in the order the letters last occur, the loop ends
    won, with every life left and the whole answer on display, and reads
    nothing after that. *)
Theorem distinct_letters_win
    (nltk_words brown : list string) (max : Z) (m : string) (tl : Z)
    (r r' : Random.state) (g0 : HangmanGame) (later : list reading) :
  1 ≤ max →
  __init__ (load_word_lists nltk_words brown).1
           (load_word_lists nltk_words brown).2 max m tl r = inr (g0, r') →
  ∃ g out,
    play_loop ((Committed <$> distinct_letters (answer g0)) ++ later) g0
    = inr (g, out)
    ∧ is_won g = true ∧ lives g = max ∧ display_word g = answer g0.
Proof.
  intros Hmax Hinit.
  destruct (init_answer_words _ _ _ _ _ _ _ _ Hinit) as (ws & _ & Hws & Ha).
  pose proof (join_words_chars ws Hws) as Hall. rewrite <- Ha in Hall.
  pose proof (init_mask_ok _ _ _ _ _ _ _ _ Hinit) as Hok.
  apply init_spec in Hinit as (Hl & _ & HG & _).
  assert (Hletter : ∀ c, (∃ i, String.get i (answer g0) = Some c) →
            Char.isalpha c = true → Char.islower c = true).
  { intros c [i Hi] Hc. pose proof (all_get _ _ _ _ Hall Hi) as Hac.
    unfold answer_char in Hac. apply orb_true_iff in Hac as [?|E]; [done|].
    apply bool_decide_eq_true in E as ->. done. }
  destruct (win_by_letters (distinct_letters (answer g0)) g0 later)
    as (g & out & Hloop & Hw & Hlg & Hd); try done.
  - lia.
  - apply NoDup_remove_dups.
  - intros x Hx. unfold distinct_letters in Hx.
    apply elem_of_remove_dups, list_elem_of_filter in Hx as [Hx1 Hx2].
    destruct (chars_single _ _ Hx2) as [c ->].
    split_and!; [|done|rewrite HG; apply not_elem_of_empty].
    exists c. split; [done|]. apply Hletter; [by apply elem_of_chars|].
    simpl in Hx1. by rewrite andb_true_r in Hx1.
  - intros i c Hi. pose proof (all_get _ _ _ _ Hall Hi) as Hac. split.
    + intros ->. done.
    + intros Hc. left. unfold distinct_letters.
      apply elem_of_remove_dups, list_elem_of_filter. split.
      * simpl. by rewrite Hc.
      * apply elem_of_chars. eauto.
  - exists g, out. split_and!; try done. congruence.
Qed.

Lemma distinct_letters_win_witness :
  ∃ g out,
    play_loop ((Committed <$> distinct_letters (answer word_game))
               ++ [Deadline]) word_game
    = inr (g, out)
    ∧ is_won g = true ∧ lives g = 3 ∧ display_word g = answer word_game.
Proof.
  refine (distinct_letters_win ["Apple"] ["Unit"; "TEST"] 3 "basic" 5
            (const_rand 0) (const_rand 0) word_game [Deadline] _ _).
  - lia.
  - vm_compute. reflexivity.
Defined.

Example distinct_letters_ex :
  distinct_letters "unit test" = ["u"; "n"; "i"; "e"; "s"; "t"].
Proof. vm_compute. reflexivity. Qed.

(** ** Construction and the script *)

Lemma filter_none {A} (P : A → bool) (l : list A) :
  Forall (λ x, P x = false) l → filter (λ x, P x = true) l = [].
Proof.
  induction 1 as [|x l Hx _ IH]; [done|].
  rewrite filter_cons_False by congruence. done.
Qed.

Lemma init_returns (W B : list string) (max : Z) (m : string) (tl : Z)
    (r : Random.state) :
  (if bool_decide (m = "basic") then W else B) ≠ [] →
  ∃ g0 r', __init__ W B max m tl r = inr (g0, r').
Proof.
  intros Hne. unfold __init__, _choose_word. cbn [mode words brown_words].
  case_bool_decide as Hm.
  - destruct (choice_nonempty W r Hne) as (w & r1 & -> & _). simpl. eauto.
  - destruct (randint_3_5 r) as (k & _ & ->).
    destruct (choices_nonempty (Z.to_nat (3 + Z.of_nat k)) B
                (Random.advance r) Hne) as (ws & r2 & -> & _). simpl. eauto.
Qed.

Lemma init_time_limit (W B : list string) (max : Z) (m : string) (tl : Z)
    (r r' : Random.state) (g0 : HangmanGame) :
  __init__ W B max m tl r = inr (g0, r') → time_limit g0 = tl.
Proof.
  unfold __init__. destruct (_choose_word _ r) as [e|[a r1]]; [done|].
  simpl. by intros [= <- _].
Qed.

(** X13. A corpus without any purely alphabetic word of at most
    [MAX_WORD_LENGTH] characters leaves the word list empty, and a
    single-word game cannot be constructed from it: [__init__] raises
    [IndexError]. *)
Theorem barren_corpus_aborts
    (nltk_words brown : list string) (max tl : Z) (r : Random.state) :
  Forall (λ w, Str.isalpha w && (Str.len w <=? MAX_WORD_LENGTH) = false)
         nltk_words →
  (load_word_lists nltk_words brown).1 = []
  ∧ __init__ (load_word_lists nltk_words brown).1
             (load_word_lists nltk_words brown).2 max "basic" tl r
    = inl IndexError.
Proof.
  intros Hall.
  assert (H : (load_word_lists nltk_words brown).1 = []).
  { unfold load_word_lists. simpl.
    by rewrite (filter_none
                  (λ w, Str.isalpha w && (Str.len w <=? MAX_WORD_LENGTH))). }
  split; [done|]. by rewrite H.
Qed.

Lemma barren_corpus_aborts_witness :
  (load_word_lists ["Pneumonia"; "x-ray"; "4th"; ""] ["Unit"]).1 = []
  ∧ __init__ (load_word_lists ["Pneumonia"; "x-ray"; "4th"; ""] ["Unit"]).1
             (load_word_lists ["Pneumonia"; "x-ray"; "4th"; ""] ["Unit"]).2
             6 "basic" 15 (const_rand 0)
    = inl IndexError.
Proof.
  apply (barren_corpus_aborts ["Pneumonia"; "x-ray"; "4th"; ""] ["Unit"]
           6 15 (const_rand 0)).
  repeat constructor.
Defined.

Lemma play_loop_deadlines (g : HangmanGame) (n : nat) (later : list reading) :
  is_won g = false →
  lives g = Z.of_nat n →
  ∃ out, play_loop (replicate n Deadline ++ later) g = inr (set_lives 0 g, out).
Proof.
  revert g. induction n as [|n IH]; intros g Hw Hl.
  - exists [].
    assert (Hin : in_progress g = false).
    { apply not_true_iff_false. intros [? _]%in_progress_spec. lia. }
    destruct later; simpl; rewrite Hin; destruct g; simpl in *; by subst.
  - assert (Hin : in_progress g = true)
      by (apply in_progress_spec; split; [lia|done]).
    destruct (IH (set_lives (lives g - 1) g)) as (out & Hout);
      [done|simpl; lia|].
    simpl. rewrite Hin. unfold mbind, result_bind. simpl in *.
    rewrite Hout. by eexists.
Qed.

(** X14. The script, once the menu is answered and the word list of the
    mode chosen is not empty: the game is a phrase game exactly when the
    answer strips to [2] and a single-word game otherwise, with the default
    lives and time limit; and if the player then lets [DEFAULT_MAX_LIVES]
    prompts in a row time out, the loop ends with no life and no letter
    guessed, the last line printed is the game-over line that discloses
    the answer, and nothing after is read. *)
Theorem main_timeouts_lose
    (nltk_words brown : list string) (line : string) (r : Random.state)
    (later : list reading) :
  (if bool_decide (Str.strip line = "2")
   then (load_word_lists nltk_words brown).2
   else (load_word_lists nltk_words brown).1) ≠ [] →
  ∃ g before,
    main nltk_words brown line r
         (replicate (Z.to_nat DEFAULT_MAX_LIVES) Deadline ++ later)
    = inr (g, before ++ [Str.newline
                         +:+ "Game Over! The correct answer was: "
                         +:+ answer g])
    ∧ mode g = (if bool_decide (Str.strip line = "2")
                then "intermediate" else "basic")
    ∧ max_lives g = DEFAULT_MAX_LIVES
    ∧ time_limit g = DEFAULT_TIME_LIMIT
    ∧ lives g = 0 ∧ is_lost g = true ∧ is_won g = false
    ∧ guessed_letters g = ∅.
Proof.
  intros Hne. unfold main.
  pose proof (init_not_won nltk_words brown) as Hnw.
  destruct (load_word_lists nltk_words brown) as [W B] eqn:EL.
  simpl in Hne, Hnw.
  set (m := if bool_decide (Str.strip line = "2")
            then "intermediate" else "basic") in *.
  destruct (init_returns W B DEFAULT_MAX_LIVES m DEFAULT_TIME_LIMIT r)
    as (g0 & r' & Hinit).
  { subst m. by case_bool_decide. }
  rewrite Hinit. unfold mbind, result_bind.
  destruct (Hnw _ _ _ _ _ _ Hinit) as [Hw _].
  pose proof (init_time_limit _ _ _ _ _ _ _ _ Hinit) as Htl0.
  apply init_spec in Hinit as (Hl & Hm0 & HG & _ & _ & _ & Hmd & _).
  destruct (play_loop_deadlines g0 (Z.to_nat DEFAULT_MAX_LIVES) later)
    as (out & Hloop); [done|by rewrite Hl|].
  unfold play. rewrite Hloop. unfold mbind, result_bind, mret, result_ret.
  assert (Hfin : in_progress (set_lives 0 g0) = false) by done.
  assert (Hwf : is_won (set_lives 0 g0) = false) by done.
  rewrite Hfin, Hwf.
  eexists (set_lives 0 g0), _. split.
  - rewrite !app_assoc. done.
  - simpl. done.
Qed.

Lemma main_timeouts_lose_witness :
  ∃ g before,
    main ["Apple"] ["Unit"; "TEST"] " 2 " (const_rand 0)
         (replicate (Z.to_nat DEFAULT_MAX_LIVES) Deadline ++ [Committed "u"])
    = inr (g, before ++ [Str.newline
                         +:+ "Game Over! The correct answer was: "
                         +:+ answer g])
    ∧ mode g = (if bool_decide (Str.strip " 2 " = "2")
                then "intermediate" else "basic")
    ∧ max_lives g = DEFAULT_MAX_LIVES
    ∧ time_limit g = DEFAULT_TIME_LIMIT
    ∧ lives g = 0 ∧ is_lost g = true ∧ is_won g = false
    ∧ guessed_letters g = ∅.
Proof.
  refine (main_timeouts_lose ["Apple"] ["Unit"; "TEST"] " 2 " (const_rand 0)
            [Committed "u"] _).
  vm_compute. intros H. discriminate H.
Defined.

Example main_ex :
  (λ p, (mode p.1, answer p.1, lives p.1, display_word p.1)) <$>
    main ["Apple"] ["Unit"; "TEST"] " 2 " (const_rand 0)
         [Deadline; Committed "u"]
  = inr ("intermediate", "unit unit unit", 5, "u___ u___ u___").
Proof. vm_compute. reflexivity. Qed.

(** ** The timed readers *)

Section Readers.

Implicit Types (p q : poll) (ps later polls : list poll)
  (prompt typed s t line : string) (c ch : ascii).

Lemma rstrip_idem s : Str.rstrip (Str.rstrip s) = Str.rstrip s.
Proof.
  induction s as [|c s IH]; [done|]. simpl.
  destruct (Str.rstrip s) as [|x r] eqn:E.
  - destruct (Char.isspace c) eqn:Ec; [done|]. simpl. by rewrite Ec.
  - change (Str.rstrip (String c (String x r)))
      with (match Str.rstrip (String x r) with
            | EmptyString =>
                if Char.isspace c then EmptyString else String c EmptyString
            | r' => String c r'
            end).
    by rewrite IH.
Qed.

Lemma lstrip_head s :
  Str.lstrip s = ""
  ∨ ∃ c t, Str.lstrip s = String c t ∧ Char.isspace c = false.
Proof.
  induction s as [|c s IH]; [by left|]. simpl.
  destruct (Char.isspace c) eqn:Ec; [done|]. right. eauto.
Qed.

Lemma rstrip_head c t :
  Char.isspace c = false → ∃ r, Str.rstrip (String c t) = String c r.
Proof.
  intros Hc. simpl. destruct (Str.rstrip t); [|eauto].
  rewrite Hc. eauto.
Qed.

Lemma strip_idem s : Str.strip (Str.strip s) = Str.strip s.
Proof.
  unfold Str.strip. destruct (lstrip_head s) as [->|(c & t & -> & Hc)];
    [done|].
  destruct (rstrip_head c t Hc) as [r Hr].
  assert (Hl : Str.lstrip (Str.rstrip (String c t)) = Str.rstrip (String c t)).
  { rewrite Hr. simpl. by rewrite Hc. }
  by rewrite Hl, rstrip_idem.
Qed.

Lemma chop_snoc t c : Reader.chop (t +:+ String c "") = t.
Proof.
  induction t as [|x t IH]; [done|].
  destruct t as [|y t]; [done|].
  change (Reader.chop (String x (String y t) +:+ String c ""))
    with (String x (Reader.chop (String y t +:+ String c ""))).
  by rewrite IH.
Qed.

Lemma foldl_edit_text typed s :
  Reader.backspace ∉ Str.to_list s →
  foldl Reader.edit typed (Str.to_list s) = typed +:+ s.
Proof.
  revert typed. induction s as [|c s IH]; intros typed Hn.
  { simpl. by rewrite app_empty_r. }
  simpl in *. apply not_elem_of_cons in Hn as [Hc Hs].
  rewrite IH by done. unfold Reader.edit.
  rewrite bool_decide_eq_false_2 by congruence.
  by rewrite app_assoc_str.
Qed.

Lemma emit_fst out (x : run * list string) : (Reader.emit out x).1 = x.1.
Proof. done. Qed.

Lemma emit_snd out (x : run * list string) :
  (Reader.emit out x).2 = out ++ x.2.
Proof. done. Qed.

(** The passes during which a reader keeps waiting. *)
Lemma windows_loop_waiting prompt typed ps polls :
  Forall (λ q, expired q = false ∧ Reader.commits "nt" q = false) ps →
  (Reader.windows_loop true prompt typed (ps ++ polls)).1
  = (Reader.windows_loop true prompt
       (foldl Reader.edit typed (omap kbhit ps)) polls).1.
Proof.
  intros Hps. revert typed.
  induction Hps as [|q ps [Hq1 Hq2] _ IH]; intros typed; [done|].
  rewrite <- app_comm_cons. simpl. rewrite Hq1.
  unfold Reader.commits in Hq2. simpl in Hq2.
  destruct (kbhit q) as [ch|]; simpl in *.
  - rewrite Hq2. simpl. by rewrite IH.
  - by rewrite IH.
Qed.

Lemma posix_loop_waiting prompt last ps polls :
  Forall (λ q, expired q = false ∧ ready q = None) ps →
  Reader.posix_loop true prompt last (ps ++ polls)
  = Reader.emit
      (Reader.collapse last (remaining <$> ps)
         ≫= Reader._render_timer_line prompt "")
      (Reader.posix_loop true prompt
         (foldl (λ _ n, Some n) last (remaining <$> ps)) polls).
Proof.
  intros Hps. revert last.
  induction Hps as [|q ps [Hq1 Hq2] _ IH]; intros last.
  { simpl. by destruct (Reader.posix_loop _ _ _ _). }
  rewrite <- app_comm_cons, fmap_cons.
  cbn [Reader.posix_loop Reader.collapse foldl]. rewrite Hq1, Hq2.
  case_bool_decide as E.
  - rewrite IH. unfold Reader.emit. simpl. done.
  - assert (last = Some (remaining q)) as ->
      by (destruct last as [n|]; [apply dec_stable; congruence | done]).
    rewrite IH. unfold Reader.emit. done.
Qed.

End Readers.

Lemma collapse_snoc (last : option Z) (l : list Z) (n : Z) :
  Reader.collapse last (l ++ [n])
  = Reader.collapse last l
    ++ (if bool_decide (Some n ≠ foldl (λ _ k, Some k) last l)
        then [n] else []).
Proof.
  revert last. induction l as [|k l IH]; intros last.
  { simpl. by case_bool_decide. }
  simpl. case_bool_decide as E.
  - by rewrite IH.
  - assert (last = Some k) as ->
      by (destruct last; [apply dec_stable; congruence | done]).
    by rewrite IH.
Qed.

Lemma collapse_head (last : option Z) (l : list Z) (a : Z) :
  head (Reader.collapse last l) = Some a → Some a ≠ last.
Proof.
  induction l as [|k l IH]; [done|]. simpl.
  case_bool_decide as E; [|done]. simpl. by intros [= <-].
Qed.

Lemma collapse_adjacent (last : option Z) (l : list Z) (i : nat) (a b : Z) :
  Reader.collapse last l !! i = Some a →
  Reader.collapse last l !! S i = Some b → a ≠ b.
Proof.
  revert last i. induction l as [|k l IH]; intros last i; [done|]. simpl.
  case_bool_decide as E; [|by apply IH].
  destruct i as [|i]; simpl; [|by apply IH].
  intros [= <-] Hb Heq. subst b.
  apply (collapse_head (Some k) l k); [|done].
  by rewrite head_lookup.
Qed.

Lemma windows_loop_returned (ms : bool) (prompt typed : string)
    (polls : list poll) (v : option string) :
  (Reader.windows_loop ms prompt typed polls).1 = Returned v →
  ∃ rd, v = timed_input rd.
Proof.
  revert typed. induction polls as [|p polls IH]; intros typed; [done|].
  simpl. destruct (expired p).
  { intros [= <-]. by exists Deadline. }
  destruct (if ms then kbhit p else None) as [ch|]; simpl; [|by apply IH].
  destruct (Reader.is_eol ch); simpl; [|by apply IH].
  intros [= <-]. by exists (Committed typed).
Qed.

Lemma posix_loop_returned (sel : bool) (prompt : string) (last : option Z)
    (polls : list poll) (v : option string) :
  (Reader.posix_loop sel prompt last polls).1 = Returned v →
  ∃ rd, v = timed_input rd.
Proof.
  revert last. induction polls as [|p polls IH]; intros last; [done|].
  simpl. destruct (expired p).
  { intros [= <-]. by exists Deadline. }
  destruct (if sel then ready p else None) as [line|]; simpl; [|by apply IH].
  intros [= <-]. by exists (Committed line).
Qed.

(** X15. On Windows, when the end-of-line key comes before the deadline,
    the reader returns what the keys before it typed, backspaces applied,
    stripped: the value the game loop gets for that committed line. *)
Theorem windows_enter_returns_typed
    (prompt : string) (ps : list poll) (p : poll) (later : list poll) :
  Forall (λ q, expired q = false ∧ Reader.commits "nt" q = false) ps →
  expired p = false →
  Reader.commits "nt" p = true →
  (Reader.timed_input "nt" prompt (ps ++ p :: later)).1
  = Returned (timed_input
                (Committed (foldl Reader.edit "" (omap kbhit ps)))).
Proof.
  intros Hps Hp1 Hp2.
  change (Reader.timed_input "nt" prompt (ps ++ p :: later))
    with (Reader.windows_loop true prompt "" (ps ++ p :: later)).
  rewrite windows_loop_waiting by done. simpl. rewrite Hp1.
  unfold Reader.commits in Hp2. simpl in Hp2.
  destruct (kbhit p) as [ch|]; [|done]. simpl in *. by rewrite Hp2.
Qed.

Lemma windows_enter_returns_typed_witness :
  (Reader.timed_input "nt" "Enter a letter: "
     ([key 14 " "; idle 14; key 13 "x"; key 13 Reader.backspace; key 12 "Q"]
      ++ key 12 Reader.cr :: [late])).1
  = Returned (Some "Q").
Proof.
  refine (windows_enter_returns_typed "Enter a letter: "
            [key 14 " "; idle 14; key 13 "x"; key 13 Reader.backspace;
             key 12 "Q"]
            (key 12 Reader.cr) [late] _ _ _).
  - repeat constructor.
  - reflexivity.
  - reflexivity.
Defined.

(** X16. What the keys do to the text typed on Windows: characters other
    than backspace are appended in order, a backspace takes the last
    character away, and a backspace on the empty text leaves it empty. *)
Theorem typing_and_backspace (typed s : string) (c : ascii) :
  Reader.backspace ∉ Str.to_list s →
  foldl Reader.edit typed (Str.to_list s) = typed +:+ s
  ∧ Reader.edit (typed +:+ String c "") Reader.backspace = typed
  ∧ Reader.edit "" Reader.backspace = "".
Proof.
  intros Hs. split_and!; [by apply foldl_edit_text| |done].
  unfold Reader.edit. rewrite bool_decide_eq_true_2 by done.
  apply chop_snoc.
Qed.

Lemma typing_and_backspace_witness :
  foldl Reader.edit "ca" (Str.to_list "ts") = "cats"
  ∧ Reader.edit ("ca" +:+ String "t" "") Reader.backspace = "ca"
  ∧ Reader.edit "" Reader.backspace = "".
Proof.
  refine (typing_and_backspace "ca" "ts" "t"%char _).
  apply (bool_decide_unpack _). vm_compute. exact I.
Defined.

(** X17. On either platform, when the deadline passes before a line is
    committed, the reader returns no value: whatever was typed is dropped,
    and a key or a line that arrives with the pass that finds the deadline
    over is not read. *)
Theorem deadline_returns_nothing
    (os_name prompt : string) (ps : list poll) (p : poll)
    (later : list poll) :
  Forall (λ q, expired q = false ∧ Reader.commits os_name q = false) ps →
  expired p = true →
  (Reader.timed_input os_name prompt (ps ++ p :: later)).1
  = Returned (timed_input Deadline).
Proof.
  intros Hps Hp. unfold Reader.timed_input, Reader.MSVCRT,
    Reader.SELECT_MODULE, Reader._windows_timed_input,
    Reader._posix_timed_input.
  case_bool_decide as Hos.
  - subst os_name. rewrite windows_loop_waiting by done. simpl.
    by rewrite Hp.
  - simpl. rewrite posix_loop_waiting.
    + simpl. by rewrite Hp.
    + eapply Forall_impl; [exact Hps|]. intros q [Hq1 Hq2]. split; [done|].
      unfold Reader.commits in Hq2.
      rewrite bool_decide_eq_false_2 in Hq2 by done.
      apply bool_decide_eq_false in Hq2. by destruct (ready q); [destruct Hq2|].
Qed.

Lemma deadline_returns_nothing_witness :
  (Reader.timed_input "posix" "Enter a letter: "
     ([idle 1; idle 0] ++ mkPoll 0 true None (Some "a") :: [])).1
  = Returned None.
Proof.
  refine (deadline_returns_nothing "posix" "Enter a letter: "
            [idle 1; idle 0] (mkPoll 0 true None (Some "a")) [] _ _).
  - repeat constructor.
  - reflexivity.
Defined.

(** X18. Off Windows, when a line is ready before the deadline, the reader
    returns the line stripped, and what it wrote is the prompt, then one
    countdown line for each pass whose whole seconds left differ from
    those of the pass before, then a line feed: no two countdown lines in
    a row show the same number. *)
Theorem posix_line_and_renders
    (os_name prompt : string) (ps : list poll) (p : poll)
    (later : list poll) (line : string) :
  os_name ≠ "nt" →
  Forall (λ q, expired q = false ∧ ready q = None) ps →
  expired p = false →
  ready p = Some line →
  Reader.timed_input os_name prompt (ps ++ p :: later)
  = (Returned (timed_input (Committed line)),
     [prompt]
     ++ (Reader.collapse None (remaining <$> (ps ++ [p]))
           ≫= Reader._render_timer_line prompt "")
     ++ [Str.newline])
  ∧ ∀ i a b,
      Reader.collapse None (remaining <$> (ps ++ [p])) !! i = Some a →
      Reader.collapse None (remaining <$> (ps ++ [p])) !! S i = Some b →
      a ≠ b.
Proof.
  intros Hos Hps Hp1 Hp2. split; [|apply collapse_adjacent].
  unfold Reader.timed_input, Reader.SELECT_MODULE, Reader._posix_timed_input.
  rewrite bool_decide_eq_false_2 by done. simpl negb.
  rewrite posix_loop_waiting by done.
  cbn [Reader.posix_loop]. rewrite Hp1, Hp2.
  rewrite fmap_app. change (remaining <$> [p]) with [remaining p].
  rewrite collapse_snoc, bind_app. unfold Reader.emit. simpl.
  f_equal. f_equal. rewrite <- app_assoc. f_equal.
  case_bool_decide; simpl; by rewrite ?app_nil_r.
Qed.

Lemma posix_line_and_renders_witness :
  Reader.timed_input "posix" ">"
    ([idle 2; idle 2; idle 1; idle 1] ++ line_in 1 " a " :: [late])
  = (Returned (timed_input (Committed " a ")),
     [">"]
     ++ (Reader.collapse None
           (remaining <$> ([idle 2; idle 2; idle 1; idle 1]
                           ++ [line_in 1 " a "]))
           ≫= Reader._render_timer_line ">" "")
     ++ [Str.newline])
  ∧ ∀ i a b,
      Reader.collapse None
        (remaining <$> ([idle 2; idle 2; idle 1; idle 1]
                        ++ [line_in 1 " a "])) !! i = Some a →
      Reader.collapse None
        (remaining <$> ([idle 2; idle 2; idle 1; idle 1]
                        ++ [line_in 1 " a "])) !! S i = Some b →
      a ≠ b.
Proof.
  refine (posix_line_and_renders "posix" ">" [idle 2; idle 2; idle 1; idle 1]
            (line_in 1 " a ") [late] " a " _ _ _ _).
  - intros H. discriminate H.
  - repeat constructor.
  - reflexivity.
  - reflexivity.
Defined.

Example posix_renders_ex :
  Reader.timed_input "posix" ">"
    [idle 12; idle 12; idle 9; idle 9; line_in 9 " a "; late]
  = (Returned (Some "a"),
     [">";
      String Reader.cr "" +:+ ">   12s          ";
      String Reader.cr "" +:+ ">    9s          ";
      Str.newline]).
Proof. vm_compute. reflexivity. Qed.

(** X19. Whatever a reader returns, on either platform and after any
    passes, is what the game loop is modelled to receive: no value, or a
    committed line stripped; so a returned text never begins or ends with
    white space. *)
Theorem reader_value_is_stripped
    (os_name prompt : string) (polls : list poll) (v : option string) :
  (Reader.timed_input os_name prompt polls).1 = Returned v →
  (∃ rd, v = timed_input rd)
  ∧ ∀ s, v = Some s → Str.strip s = s.
Proof.
  intros Hv.
  assert (H : ∃ rd, v = timed_input rd).
  { unfold Reader.timed_input, Reader._windows_timed_input,
      Reader._posix_timed_input in Hv.
    case_bool_decide.
    - by eapply windows_loop_returned.
    - simpl in Hv. by eapply posix_loop_returned. }
  split; [done|]. intros s ->. destruct H as [[|raw] Hrd]; [done|].
  simpl in Hrd. injection Hrd as ->. apply strip_idem.
Qed.

Lemma reader_value_is_stripped_witness :
  (∃ rd, Some "a b" = timed_input rd)
  ∧ ∀ s, Some "a b" = Some s → Str.strip s = s.
Proof.
  refine (reader_value_is_stripped "nt" "> "
            [key 3 " "; key 3 "a"; key 3 " "; key 2 "b"; key 2 " ";
             key 2 Reader.lf]
            (Some "a b") _).
  vm_compute. reflexivity.
Defined.

(** ** More on the rounds *)

(** X20. A letter that has not been guessed and is not in the answer costs
    exactly one life, is recorded as guessed, and leaves the display as it
    was; the round reports the letter as wrong.  [raw] is any line that
    normalizes to the letter [c]. *)
Theorem wrong_guess_costs_one_life
    (g : HangmanGame) (raw : string) (c : ascii) :
  normalized raw = String c "" →
  Char.isalpha c = true →
  String c "" ∉ guessed_letters g →
  (∀ i, String.get i (answer g) ≠ Some c) →
  play_round g (timed_input (Committed raw))
  = inr (set_lives (lives g - 1)
           (set_guessed_letters ({[String c ""]} ∪ guessed_letters g) g),
         ["Wrong! Letter '" +:+ String c "" +:+ "' is not in the word."]).
Proof.
  unfold normalized. intros Hn Halpha Hnin Hocc. simpl.
  rewrite play_round_miss; rewrite ?Hn; try done.
  - by exists c.
  - apply not_true_iff_false. intros H%contains_char%elem_of_chars.
    destruct H as [i Hi]. by apply (Hocc i).
Qed.

Lemma wrong_guess_costs_one_life_witness :
  play_round word_game (timed_input (Committed " Z"))
  = inr (set_lives (3 - 1) (set_guessed_letters ({["z"]} ∪ ∅) word_game),
         ["Wrong! Letter 'z' is not in the word."]).
Proof.
  refine (wrong_guess_costs_one_life word_game " Z" "z"%char _ _ _ _).
  - reflexivity.
  - reflexivity.
  - apply not_elem_of_empty.
  - intros [|[|[|[|[|i]]]]] H; discriminate H.
Defined.

Lemma play_round_lower (g : HangmanGame) (s1 s2 : string) :
  Str.lower s1 = Str.lower s2 →
  play_round g (Some s1) = play_round g (Some s2).
Proof.
  intros H. unfold play_round.
  destruct s1 as [|c1 s1], s2 as [|c2 s2]; try done.
  change (truthy (Some (String c1 s1))) with true.
  change (truthy (Some (String c2 s2))) with true.
  change (default "" (Some (String c1 s1))) with (String c1 s1).
  change (default "" (Some (String c2 s2))) with (String c2 s2).
  cbn [negb]. by rewrite H.
Qed.

(** X21. A round depends on the committed line only through its
    normalized text: two lines that differ in letter case or in white
    space around them have the same effect and the same feedback. *)
Theorem round_ignores_case_and_margins
    (g : HangmanGame) (raw1 raw2 : string) :
  normalized raw1 = normalized raw2 →
  play_round g (timed_input (Committed raw1))
  = play_round g (timed_input (Committed raw2)).
Proof. intros H. simpl. by apply play_round_lower. Qed.

Lemma round_ignores_case_and_margins_witness :
  play_round after_p (timed_input (Committed "  A"))
  = play_round after_p (timed_input (Committed "a ")).
Proof.
  apply (round_ignores_case_and_margins after_p "  A" "a ").
  reflexivity.
Defined.

(** X22. Invalid lines never end the game: any series of committed lines
    that are not blank and do not normalize to one letter leaves a game in
    progress exactly as it was, however long the series. *)
Theorem invalid_lines_leave_game (g : HangmanGame) (raws : list string) :
  Forall (λ raw, Str.strip raw ≠ "" ∧ ¬ single_letter (normalized raw))
         raws →
  ∃ out, play_loop (Committed <$> raws) g = inr (g, out).
Proof.
  induction 1 as [|raw raws [H1 H2] _ [out IH]].
  { exists []. simpl. by destruct (in_progress g). }
  rewrite fmap_cons. simpl play_loop.
  destruct (in_progress g) eqn:E; [|by eexists].
  change (timed_input (Committed raw)) with (Some (Str.strip raw)).
  rewrite play_round_invalid by done.
  unfold mbind, result_bind. rewrite IH. by eexists.
Qed.

Lemma invalid_lines_leave_game_witness :
  ∃ out,
    play_loop (Committed <$> ["ab"; " 7 "; "?"; "p p"]) after_p
    = inr (after_p, out).
Proof.
  apply (invalid_lines_leave_game after_p ["ab"; " 7 "; "?"; "p p"]).
  repeat (apply Forall_cons_2;
          [split; [intros H; vm_compute in H; discriminate H
                  |intros (c & H & Ha); vm_compute in H;
                   first [discriminate H
                         |injection H as <-; discriminate Ha]]|]).
  apply Forall_nil_2.
Defined.
